(** * HbarSuite IPFS access layer: a shallow embedding and its properties

    The development follows the TypeScript sources:
    - [_Base.extractCID]            (types/models/models/ipfs.base.model.ts)
    - [_Node.get/getFile/pin/unpin] (types/models/models/ipfs.node.model.ts)
    - [_Gateway.get/getFile]        (the gateway provider)
    - [IpfsService.get/getFile]     (the facade) and the controller's read.

    JavaScript strings are modelled as lists of characters, regular
    expressions by a small backtracking matcher in continuation-passing style,
    asynchronous code by an error-and-state monad over the world the code
    touches (pin collection, IPFS daemon, event emitter). *)

From Stdlib Require Import Ascii String.
From Stdlib Require Import List Bool Arith Lia Permutation.
Import ListNotations.

Set Implicit Arguments.

(** ** JavaScript strings *)

Module JsString.

(** A string is the list of its code units; the model keeps to the
    one-byte ones. *)
Definition jsstring := list ascii.

(** A string literal of the source. *)
Definition js (s : string) : jsstring := list_ascii_of_string s.

Fixpoint eqb (a b : jsstring) : bool :=
  match a, b with
  | [], [] => true
  | x :: a', y :: b' => Ascii.eqb x y && eqb a' b'
  | _, _ => false
  end.

(** [p] is a prefix of [s]. *)
Fixpoint startsWith (s p : jsstring) {struct p} : bool :=
  match p with
  | [] => true
  | x :: p' =>
      match s with
      | [] => false
      | y :: s' => Ascii.eqb x y && startsWith s' p'
      end
  end.

(** [String.prototype.endsWith]: the last [length suf] characters of [s]
    are compared with [suf]; false when [s] is shorter. *)
Definition endsWith (s suf : jsstring) : bool :=
  (length suf <=? length s) && eqb (skipn (length s - length suf) s) suf.

(** [s.replace(pat, '')] with a string pattern: the first occurrence of
    [pat] is removed, the rest is left as it is. *)
Fixpoint replace_first (pat : jsstring) (s : jsstring) : jsstring :=
  if startsWith s pat then skipn (length pat) s
  else match s with
       | [] => []
       | c :: s' => c :: replace_first pat s'
       end.

(** The part of [s] that was read when [rest] is what remains of it. *)
Definition consumed (s rest : jsstring) : jsstring :=
  firstn (length s - length rest) s.

End JsString.
Import JsString.

(** ** Regular expressions

    The fragment of ECMAScript patterns the sources use: literal characters,
    [.], a negated one-character class, a greedy [+] over a character class,
    a greedy [?] over a group, capturing groups and concatenation. *)

Module Regex.

Inductive charset : Type :=
| CDot                    (* .    : any character but a line terminator *)
| CNot (c : ascii).       (* [^c] : any character but c *)

Definition is_line_terminator (c : ascii) : bool :=
  Ascii.eqb c "010"%char || Ascii.eqb c "013"%char.

Definition in_charset (cs : charset) (c : ascii) : bool :=
  match cs with
  | CDot => negb (is_line_terminator c)
  | CNot d => negb (Ascii.eqb c d)
  end.

Inductive regex : Type :=
| Lit (p : jsstring)           (* a run of literal characters *)
| Cls (cs : charset)           (* one character of a class *)
| Plus (cs : charset)          (* cs+, greedy *)
| Seq (r1 r2 : regex)
| Opt (r : regex)              (* r?, greedy *)
| Grp (n : nat) (r : regex).   (* the n-th capturing group *)

(** Captures: group number to the last substring it matched, [None] for a
    group that did not take part in the match (JavaScript's undefined). *)
Definition captures := nat -> option jsstring.

Definition no_captures : captures := fun _ => None.

Definition set_capture (n : nat) (v : jsstring) (caps : captures) : captures :=
  fun j => if Nat.eqb j n then Some v else caps j.

Section Matcher.
Variable R : Type.

(** Greedy repetition: the longest run of [cs] is tried first, shorter
    ones on backtracking. *)
Fixpoint star (cs : charset) (s : jsstring) (k : jsstring -> option R)
  : option R :=
  match s with
  | [] => k []
  | c :: s' =>
      if in_charset cs c then
        match star cs s' k with
        | Some r => Some r
        | None => k s
        end
      else k s
  end.

(** [run r s caps k]: match [r] at the head of [s], then hand what is left
    and the captures to the continuation [k]; [None] makes the matcher
    backtrack to the latest choice point. *)
Fixpoint run (r : regex) (s : jsstring) (caps : captures)
         (k : jsstring -> captures -> option R) {struct r} : option R :=
  match r with
  | Lit p => if startsWith s p then k (skipn (length p) s) caps else None
  | Cls cs =>
      match s with
      | c :: s' => if in_charset cs c then k s' caps else None
      | [] => None
      end
  | Plus cs =>
      match s with
      | c :: s' =>
          if in_charset cs c then star cs s' (fun s'' => k s'' caps)
          else None
      | [] => None
      end
  | Seq r1 r2 => run r1 s caps (fun s' caps' => run r2 s' caps' k)
  | Opt r1 =>
      match run r1 s caps k with
      | Some v => Some v
      | None => k s caps
      end
  | Grp n r1 =>
      run r1 s caps (fun s' caps' => k s' (set_capture n (consumed s s') caps'))
  end.
End Matcher.

Definition accept (s : jsstring) (caps : captures)
  : option (jsstring * captures) := Some (s, caps).

(** The array [RegExp.prototype.exec] returns: the whole match, then the
    groups 1..ngroups. *)
Definition match_array (ngroups : nat) (s : jsstring)
           (res : jsstring * captures) : list (option jsstring) :=
  Some (consumed s (fst res)) :: map (snd res) (seq 1 ngroups).

(** [exec] without the global or sticky flag: the match is attempted at
    every index from 0 to the length of the input; [None] is null. *)
Fixpoint exec (r : regex) (ngroups : nat) (s : jsstring)
  : option (list (option jsstring)) :=
  match run r s no_captures accept with
  | Some res => Some (match_array ngroups s res)
  | None =>
      match s with
      | [] => None
      | _ :: s' => exec r ngroups s'
      end
  end.

End Regex.
Import Regex.

(** ** Values and outcomes *)

#[warnings="-register-all"]
Inductive error : Type :=
| TypeError                                  (* a property read on undefined or null *)
| Error (msg : string)                       (* new Error(msg) *)
| AggregateError (errors : list error)       (* Promise.any with every promise rejected *)
| ExternalError (code : nat).                (* raised by a collaborator: daemon, HTTP, database *)

Inductive outcome (A : Type) : Type :=
| Returns (a : A)
| Throws (e : error).
Arguments Returns {A} a.
Arguments Throws {A} e.

(** What [extractCID] receives and returns: a string, null or undefined. *)
Inductive value : Type :=
| VNull
| VUndefined
| VStr (s : jsstring).

Definition truthy (v : value) : bool :=
  match v with
  | VStr (_ :: _) => true
  | _ => false
  end.

(** [lodash.nth(array, n)] for n >= 0: undefined for a null array, an index
    out of range or an undefined element. *)
Definition lodash_nth (array : option (list (option jsstring))) (n : nat) : value :=
  match array with
  | None => VUndefined
  | Some l =>
      match nth_error l n with
      | Some (Some s) => VStr s
      | _ => VUndefined
      end
  end.

(** ** _Base.extractCID *)

Module Base.

(** new RegExp('(https:\/\/[^?]+\/ipfs\/)?([^?]+)', '') : in the string
    literal an escaped slash is a slash. *)
Definition regex : Regex.regex :=
  Seq (Opt (Grp 1 (Seq (Lit (js "https://"))
                       (Seq (Plus (CNot "?"%char)) (Lit (js "/ipfs/"))))))
      (Grp 2 (Plus (CNot "?"%char))).

(** new RegExp('https:\/\/([^?]+)\.ipfs\.dweb\.link\/', '') : in the string
    literal an escaped dot is a dot, so the pattern's dots match any
    character. *)
Definition dweb : Regex.regex :=
  Seq (Lit (js "https://"))
      (Seq (Grp 1 (Plus (CNot "?"%char)))
           (Seq (Cls CDot)
                (Seq (Lit (js "ipfs"))
                     (Seq (Cls CDot)
                          (Seq (Lit (js "dweb"))
                               (Seq (Cls CDot) (Lit (js "link/")))))))).

Definition extractCID (url : value) : outcome value :=
  if truthy url then
    match url with
    | VStr u =>
        let CID := exec regex 2 (replace_first (js "ipfs://") u) in
        let cid := lodash_nth CID 2 in
        match cid with
        | VStr c =>
            if endsWith c (js "ipfs.dweb.link/") then
              let mtch := exec dweb 1 c in
              Returns (lodash_nth mtch 1)
            else Returns cid
        | _ => Throws TypeError      (* cid.endsWith on undefined *)
        end
    | _ => Throws TypeError
    end
  else Returns VNull.

End Base.

(** ** Shapes of URLs and measures of patterns *)

(** The least number of characters a match of the pattern reads. *)
Fixpoint min_width (r : regex) : nat :=
  match r with
  | Lit p => length p
  | Cls _ => 1
  | Plus _ => 1
  | Seq r1 r2 => min_width r1 + min_width r2
  | Opt _ => 0
  | Grp _ r1 => min_width r1
  end.

Definition contains (s : jsstring) (c : ascii) : bool := existsb (Ascii.eqb c) s.

Definition nonempty (s : jsstring) : bool :=
  match s with [] => false | _ :: _ => true end.

(** A CID as it stands in a URL: a non-empty token without the delimiters
    of the path and of the query string. *)
Definition cid_token (X : jsstring) : bool :=
  nonempty X && negb (contains X "?"%char) && negb (contains X "/"%char).

(** A host: non-empty, none of the characters that end a host. *)
Definition host_name (h : jsstring) : bool :=
  nonempty h && negb (contains h "?"%char) && negb (contains h "/"%char)
  && negb (contains h ":"%char).

(** An optional query string: nothing, or a question mark and anything. *)
Definition query_part (qs : jsstring) : bool :=
  match qs with
  | [] => true
  | c :: _ => Ascii.eqb c "?"%char
  end.

(** The HTTP gateway path form https://<host>/ipfs/<rest>. *)
Definition gateway_path_form (s : jsstring) : Prop :=
  exists h x, h <> [] /\ x <> [] /\ s = js "https://" ++ h ++ js "/ipfs/" ++ x.

(** The input once the first ipfs:// is taken out of it. *)
Definition scheme_stripped (u : jsstring) : jsstring :=
  replace_first (js "ipfs://") u.

(** Some character of the string is not a question mark. *)
Definition has_cid_char (s : jsstring) : bool :=
  existsb (in_charset (CNot "?"%char)) s.

(** ** The world of the providers *)

(** Values read from IPFS: what JSON.parse and the HTTP client hand over. *)
#[warnings="-register-all"]
Inductive jsval : Type :=
| JUndefined
| JNull
| JBool (b : bool)
| JNumber (n : nat)
| JString (s : jsstring)
| JArray (items : list jsval)
| JObject (fields : list (jsstring * jsval)).

(** The number of constructors of a value. *)
Fixpoint jsize (v : jsval) : nat :=
  match v with
  | JArray items => S (list_sum (map jsize items))
  | JObject fields =>
      S (list_sum (map (fun f : jsstring * jsval => let (_, x) := f in jsize x)
                       fields))
  | _ => 1
  end.

(** An object literal with the one field data. *)
Definition data_object (v : jsval) : jsval := JObject [(js "data", v)].

(** The property read [x.data]. *)
Definition read_data (x : jsval) : outcome jsval :=
  match x with
  | JUndefined | JNull => Throws TypeError
  | JObject fields =>
      match find (fun f => JsString.eqb (fst f) (js "data")) fields with
      | Some f => Returns (snd f)
      | None => Returns JUndefined
      end
  | _ => Returns JUndefined
  end.

(** IAuth.ICredentials.IWeb3.IEntity, of which the code reads walletId. *)
Record Entity : Type := { walletId : jsstring }.

(** A document of the pin collection (the _Pin schema). *)
Record PinRecord : Type := {
  pin_cid : jsstring;
  pin_owner : jsstring;
  pin_timestamp : nat
}.

(** An event handed to the event emitter. *)
Record Event : Type := {
  topic : string;
  payload_content : jsstring;
  payload_owner : Entity
}.

(** An HTTP response, of which the code reads data. *)
Record Response (D : Type) : Type := { data : D }.
Arguments data {D} r.

(** { data: { buffer, type } } *)
Record FileResult (T : Type) : Type := {
  buffer : jsstring;
  type : option T
}.

(** IIPFS.IOptions *)
Record Options : Type := {
  nodeUrl : jsstring;
  gatewaysUrls : list jsstring
}.

(** The collaborators the module is given: the IPFS HTTP client, the
    validation of the pin schema on a write, the event emitter and the
    subscribers other modules have registered with it, JSON.parse, file-type
    and the HTTP service.  A [Some] of [validate] or [subscribers] is the
    error raised.  [has_eventEmitter] is whether the constructor of the node
    was given its fourth argument: it declares (pinModel, options,
    httpService, eventEmitter), and without the last one this.eventEmitter
    is undefined.  The string of [client_cat] is the content of the block,
    bytes which get reads as text; on the one-byte characters of the model
    the two are one string. *)
Class Collaborators : Type := {
  Daemon : Type;
  client_add : jsstring -> Daemon -> outcome jsstring * Daemon;
  client_cat : jsstring -> Daemon -> outcome jsstring * Daemon;
  client_pin_rm : jsstring -> Daemon -> outcome unit * Daemon;
  validate : PinRecord -> option error;
  has_eventEmitter : bool;
  subscribers : Event -> option error;
  JSON_parse : jsstring -> option jsval;
  FileType : Type;
  fileTypeFromBuffer : jsstring -> option FileType;
  http_get : jsstring -> outcome (Response jsval);
  http_get_arraybuffer : jsstring -> outcome (Response jsstring)
}.

Section World.
Context {C : Collaborators}.

Record World : Type := {
  ledger : list PinRecord;      (* the pin collection, in insertion order *)
  daemon : Daemon;              (* the IPFS node behind the client *)
  emitted : list Event;         (* what was handed to the event emitter *)
  clock : nat                   (* Date.now() *)
}.

Definition with_ledger (l : list PinRecord) (w : World) : World :=
  {| ledger := l; daemon := daemon w; emitted := emitted w; clock := clock w |}.

Definition with_daemon (d : Daemon) (w : World) : World :=
  {| ledger := ledger w; daemon := d; emitted := emitted w; clock := clock w |}.

Definition with_emitted (l : list Event) (w : World) : World :=
  {| ledger := ledger w; daemon := daemon w; emitted := l; clock := clock w |}.

(** Code that runs in the world and returns or throws. *)
Definition M (A : Type) : Type := World -> outcome A * World.

Definition ret {A} (a : A) : M A := fun w => (Returns a, w).

Definition throw {A} (e : error) : M A := fun w => (Throws e, w).

Definition bind {A B} (m : M A) (f : A -> M B) : M B :=
  fun w =>
    match m w with
    | (Returns a, w') => f a w'
    | (Throws e, w') => (Throws e, w')
    end.

Definition tryCatch {A} (m : M A) (handler : error -> M A) : M A :=
  fun w =>
    match m w with
    | (Returns a, w') => (Returns a, w')
    | (Throws e, w') => handler e w'
    end.

Definition lift {A} (o : outcome A) : M A := fun w => (o, w).

(** A call of the IPFS client. *)
Definition client {A} (op : Daemon -> outcome A * Daemon) : M A :=
  fun w => let (o, d) := op (daemon w) in (o, with_daemon d w).

Definition date_now : M nat := fun w => (Returns (clock w), w).

(** pinModel.findOne({ cid }): the first document with that cid. *)
Definition findOne (c : jsstring) : M (option PinRecord) :=
  fun w => (Returns (find (fun r => JsString.eqb (pin_cid r) c) (ledger w)), w).

(** pinModel.create(doc): the schema is validated, the document appended;
    the schema declares no unique index. *)
Definition create (r : PinRecord) : M PinRecord :=
  fun w =>
    match validate r with
    | Some e => (Throws e, w)
    | None => (Returns r, with_ledger (ledger w ++ [r]) w)
    end.

Fixpoint delete_first (c : jsstring) (l : list PinRecord) : list PinRecord :=
  match l with
  | [] => []
  | r :: l' => if JsString.eqb (pin_cid r) c then l' else r :: delete_first c l'
  end.

(** pinModel.deleteOne({ cid }): the first document with that cid goes. *)
Definition deleteOne (c : jsstring) : M unit :=
  fun w => (Returns tt, with_ledger (delete_first c (ledger w)) w).

(** this.eventEmitter.emit(topic, payload): on an undefined emitter the
    read of emit raises a TypeError and nothing is handed over; otherwise
    the subscribers run synchronously and an error of theirs is raised by
    emit. *)
Definition emit (ev : Event) : M unit :=
  fun w =>
    if has_eventEmitter then
      let w' := with_emitted (emitted w ++ [ev]) w in
      match subscribers ev with
      | Some e => (Throws e, w')
      | None => (Returns tt, w')
      end
    else (Throws TypeError, w).

End World.

Notation "x <- c1 ;; c2" := (bind c1 (fun x => c2))
  (at level 61, c1 at next level, right associativity).

(** How many documents of the collection carry the cid. *)
Definition records_of (c : jsstring) (l : list PinRecord) : nat :=
  length (filter (fun r => JsString.eqb (pin_cid r) c) l).

(** ** _Node *)

Module Node.
Section Node.
Context {C : Collaborators}.

Definition get (cid : jsstring) : M jsval :=
  tryCatch
    (_ <- (if nonempty cid then ret tt else throw (Error "Invalid CID")) ;;
     content <- client (client_cat cid) ;;
     match JSON_parse content with
     | Some v => ret (data_object v)
     | None => ret (data_object (JString content))
     end)
    (fun error => throw error).

Definition getFile (ipfsUrl : jsstring) : M (FileResult FileType) :=
  tryCatch
    (CID <- lift (Base.extractCID (VStr ipfsUrl)) ;;
     match CID with
     | VStr (x :: c) =>
         buffer <- client (client_cat (x :: c)) ;;
         ret {| buffer := buffer; type := fileTypeFromBuffer buffer |}
     | _ => throw (Error "Invalid CID")
     end)
    (fun error => throw error).

Definition write_topic : string := "ipfs:write".

Definition pin (content : jsstring) (owner : Entity) (broadcast : bool)
  : M jsstring :=
  tryCatch
    (cid <- client (client_add content) ;;
     now <- date_now ;;
     _ <- create {| pin_cid := cid; pin_owner := walletId owner;
                    pin_timestamp := now |} ;;
     _ <- (if broadcast
           then emit {| topic := write_topic; payload_content := content;
                        payload_owner := owner |}
           else ret tt) ;;
     ret cid)
    (fun error => throw error).

(** @OnEvent('ipfs:broadcast:write') *)
Definition broadcast_write_topic : string := "ipfs:broadcast:write".

(** The handler returns undefined ([None]) after a pin, false after a
    failure. *)
Definition handleIpfsBroadcastWrite (content : jsstring) (owner : Entity)
  : M (option bool) :=
  tryCatch
    (_ <- pin content owner false ;; ret None)
    (fun error => ret (Some false)).

Definition unpin (cid : jsstring) (owner : Entity) : M bool :=
  tryCatch
    (pinData <- findOne cid ;;
     match pinData with
     | None => throw (Error "Content not pinned")
     | Some p =>
         if negb (JsString.eqb (pin_owner p) (walletId owner))
         then throw (Error "Unauthorized: only content owner can unpin")
         else
           _ <- client (client_pin_rm cid) ;;
           _ <- deleteOne cid ;;
           ret true
     end)
    (fun error => throw error).

(** What the event emitter of an instance of the module, the emitting one
    or a peer, does with an event it is handed: the one subscription of the
    module is the handler above, on its own topic. *)
Definition deliver (ev : Event) : M (option bool) :=
  if String.eqb (topic ev) broadcast_write_topic
  then handleIpfsBroadcastWrite (payload_content ev) (payload_owner ev)
  else ret None.

End Node.
End Node.

(** The document pin writes and the event it emits. *)
Definition pin_record {C : Collaborators} (cid : jsstring) (owner : Entity) (w : World)
  : PinRecord :=
  {| pin_cid := cid; pin_owner := walletId owner; pin_timestamp := clock w |}.

Definition write_event (content : jsstring) (owner : Entity) : Event :=
  {| topic := Node.write_topic; payload_content := content; payload_owner := owner |}.

(** ** Promise.any *)

Section PromiseAny.
Variable A : Type.

Fixpoint record_error (i : nat) (e : error) (errors : list (option error))
  : list (option error) :=
  match errors, i with
  | [], _ => []
  | _ :: rest, 0 => Some e :: rest
  | x :: rest, S j => x :: record_error j e rest
  end.

(** The errors once every promise has been rejected. *)
Fixpoint all_rejected (errors : list (option error)) : option (list error) :=
  match errors with
  | [] => Some []
  | None :: _ => None
  | Some e :: rest =>
      match all_rejected rest with
      | Some l => Some (e :: l)
      | None => None
      end
  end.

(** The promises settle in the order [order] lists their indices.  The
    first fulfilment settles the result; a rejection is recorded at its
    index and the result is rejected with the AggregateError of all of
    them once none is missing.  [None]: the result is still pending when
    the listed promises have settled. *)
Fixpoint any_run (promises : list (outcome A)) (errors : list (option error))
         (order : list nat) : option (outcome A) :=
  match order with
  | [] =>
      match all_rejected errors with
      | Some l => Some (Throws (AggregateError l))
      | None => None
      end
  | i :: rest =>
      match nth_error promises i with
      | Some (Returns a) => Some (Returns a)
      | Some (Throws e) => any_run promises (record_error i e errors) rest
      | None => any_run promises errors rest
      end
  end.

Definition promise_any (promises : list (outcome A)) (order : list nat)
  : option (outcome A) :=
  any_run promises (repeat None (length promises)) order.

End PromiseAny.

Definition rejected {A} (o : outcome A) : bool :=
  match o with Throws _ => true | Returns _ => false end.

(** The errors of the promises, in the order of the promises. *)
Definition errors_of {A} (promises : list (outcome A)) : list error :=
  flat_map (fun o => match o with Throws e => [e] | Returns _ => [] end) promises.

(** ** _Gateway *)

Module Gateway.
Section Gateway.
Context {C : Collaborators}.
Variable options : Options.

(** The requests of get, one per configured gateway. *)
Definition requests (CID : jsstring) : list (outcome (Response jsval)) :=
  map (fun gateway => http_get (gateway ++ CID)) (gatewaysUrls options).

(** [order] is the order in which the requests complete. *)
Definition get (order : list nat) (CID : jsstring) : option (outcome jsval) :=
  match promise_any (requests CID) order with
  | Some (Returns response) => Some (Returns (data response))
  | Some (Throws error) => Some (Throws error)
  | None => None
  end.

(** A value inside a template literal. *)
Definition template (v : value) : jsstring :=
  match v with
  | VStr s => s
  | VNull => js "null"
  | VUndefined => js "undefined"
  end.

Definition getFile (order : list nat) (ipfsUrl : jsstring)
  : option (outcome (FileResult FileType)) :=
  match Base.extractCID (VStr ipfsUrl) with
  | Throws error => Some (Throws error)
  | Returns CID =>
      let promises :=
        map (fun gateway => http_get_arraybuffer (gateway ++ template CID))
            (gatewaysUrls options) in
      match promise_any promises order with
      | Some (Returns response) =>
          let buffer := data response in
          Some (Returns {| buffer := buffer; type := fileTypeFromBuffer buffer |})
      | Some (Throws error) => Some (Throws error)
      | None => None
      end
  end.

End Gateway.
End Gateway.

(** ** IpfsService and IpfsController *)

Module IpfsService.
Section IpfsService.
Context {C : Collaborators}.
Variable options : Options.

(** An awaited call that may never settle: [None] is pending for ever. *)
Definition Async (A : Type) : Type := World -> option (outcome A) * World.

Definition get (order : list nat) (CID : jsstring) : Async jsval :=
  fun w =>
    match Node.get CID w with
    | (Returns v, w') => (Some (Returns v), w')
    | (Throws _, w') => (Gateway.get options order CID, w')
    end.

Definition getFile (order : list nat) (ipfsUrl : jsstring)
  : Async (FileResult FileType) :=
  fun w =>
    match Gateway.getFile options order ipfsUrl with
    | Some (Returns v) => (Some (Returns v), w)
    | Some (Throws _) =>
        let (o, w') := Node.getFile ipfsUrl w in (Some o, w')
    | None => (None, w)
    end.

Definition pin (CID : jsstring) (owner : Entity) : M jsstring :=
  Node.pin CID owner true.

Definition unpin (CID : jsstring) (owner : Entity) : M bool :=
  Node.unpin CID owner.

End IpfsService.
End IpfsService.

Module IpfsController.
Section IpfsController.
Context {C : Collaborators}.
Variable options : Options.

(** return (await this.ipfsService.get(cid)).data; an error is raised
    again as a BadRequestException with its message, the model keeps the
    error itself. *)
Definition readContent (order : list nat) (cid : jsstring)
  : IpfsService.Async jsval :=
  fun w =>
    match IpfsService.get options order cid w with
    | (Some (Returns v), w') => (Some (read_data v), w')
    | (r, w') => (r, w')
    end.

End IpfsController.
End IpfsController.

(** ** A sample deployment

    A daemon that keeps the blocks it was given under a CID derived from the
    content, no validation error, a node constructed with its event emitter,
    no foreign subscriber, one gateway that serves the block "hello". *)

Module Sample.

Definition cid_of (content : jsstring) : jsstring := js "Qm" ++ content.

Definition blocks := list (jsstring * jsstring).

Definition has_block (c : jsstring) (d : blocks) : bool :=
  existsb (fun b => JsString.eqb (fst b) c) d.

Definition unreachable : error := ExternalError 503.

(** [up]: whether the daemon answers. *)
Definition collaborators (up : bool) : Collaborators := {|
  Daemon := blocks;
  client_add content d :=
    if up then (Returns (cid_of content), (cid_of content, content) :: d)
    else (Throws unreachable, d);
  client_cat c d :=
    if up then
      match find (fun b => JsString.eqb (fst b) c) d with
      | Some b => (Returns (snd b), d)
      | None => (Throws (ExternalError 404), d)
      end
    else (Throws unreachable, d);
  client_pin_rm c d :=
    if up && has_block c d
    then (Returns tt, filter (fun b => negb (JsString.eqb (fst b) c)) d)
    else (Throws unreachable, d);
  validate _ := None;
  has_eventEmitter := true;
  subscribers _ := None;
  JSON_parse _ := None;
  FileType := unit;
  fileTypeFromBuffer _ := None;
  http_get url :=
    if JsString.eqb url (js "https://up.example/ipfs/Qmhello")
    then Returns {| data := JString (js "hello") |}
    else Throws (ExternalError 504);
  http_get_arraybuffer url :=
    if JsString.eqb url (js "https://up.example/ipfs/Qmhello")
    then Returns {| data := js "hello" |}
    else Throws (ExternalError 504)
|}.

Definition options : Options := {|
  nodeUrl := js "http://127.0.0.1:5001";
  gatewaysUrls := [js "https://down.example/ipfs/"; js "https://up.example/ipfs/"]
|}.

Definition empty_world (up : bool) : @World (collaborators up) :=
  {| ledger := []; daemon := ([] : @Daemon (collaborators up));
     emitted := []; clock := 1700 |}.

Definition alice : Entity := {| walletId := js "0.0.1001" |}.
Definition bob : Entity := {| walletId := js "0.0.2002" |}.

Definition hello_record : PinRecord :=
  {| pin_cid := cid_of (js "hello"); pin_owner := walletId alice;
     pin_timestamp := 1700 |}.

(** The world once alice has pinned "hello". *)
Definition pinned_world (up : bool) : @World (collaborators up) :=
  {| ledger := [hello_record];
     daemon := ([(cid_of (js "hello"), js "hello")] : @Daemon (collaborators up));
     emitted := []; clock := 1701 |}.

End Sample.

(** ** encodeURIComponent and _Gateway.getImageUrl *)

(** The characters encodeURIComponent leaves as they are. *)
Definition unreserved_alphabet : jsstring :=
  js "ABCDEFGHIJKLMNOPQRSTUVWXYZabcdefghijklmnopqrstuvwxyz0123456789-_.!~*'()".

Definition is_unreserved (c : ascii) : bool :=
  existsb (Ascii.eqb c) unreserved_alphabet.

(** The characters of an encoded string. *)
Definition escaped_char (x : ascii) : bool :=
  is_unreserved x || Ascii.eqb x "%"%char.

Definition hex_digit (n : nat) : ascii :=
  nth n (js "0123456789ABCDEF") "0"%char.

(** One byte of the UTF-8 encoding, escaped. *)
Definition percent (byte : nat) : jsstring :=
  ["%"%char; hex_digit (byte / 16); hex_digit (byte mod 16)].

(** A code unit below 128 is one byte of UTF-8, one from 128 to 255 is the
    two bytes 110000xx 10xxxxxx.  The strings of the model are made of these
    one-byte code units; on them encodeURIComponent always returns.  Code
    units above 255, among them the lone surrogates on which the function
    raises a URIError, are not strings of the model. *)
Definition encode_unit (c : ascii) : jsstring :=
  if is_unreserved c then [c]
  else
    let n := nat_of_ascii c in
    if n <? 128 then percent n
    else percent (192 + n / 64) ++ percent (128 + n mod 64).

Definition encodeURIComponent (s : jsstring) : jsstring :=
  flat_map encode_unit s.

Module GatewayImage.

Definition getImageUrl (cid : jsstring) : jsstring :=
  js "https://gateway.pinata.cloud/ipfs/" ++ encodeURIComponent cid
     ++ js "?optimizer=image&width=300".

End GatewayImage.

(** ** _Gateway.getMetadata *)

Definition js_truthy (v : jsval) : bool :=
  match v with
  | JUndefined | JNull => false
  | JBool b => b
  | JNumber n => negb (n =? 0)
  | JString s => nonempty s
  | JArray _ | JObject _ => true
  end.

(** The read [x.key] of a property that no prototype defines (image, CID). *)
Definition read_named (x : jsval) (key : jsstring) : outcome jsval :=
  match x with
  | JUndefined | JNull => Throws TypeError
  | JObject fields =>
      match find (fun f => JsString.eqb (fst f) key) fields with
      | Some f => Returns (snd f)
      | None => Returns JUndefined
      end
  | _ => Returns JUndefined
  end.

(** extractCID on a value of any type: a falsy one gives null, a truthy one
    that is no string has no method replace. *)
Definition extractCID_any (url : jsval) : outcome value :=
  match url with
  | JString s => Base.extractCID (VStr s)
  | _ => if js_truthy url then Throws TypeError else Returns VNull
  end.

(** The fields of an object after the assignment of one of them. *)
Fixpoint set_field (key : jsstring) (v : jsval) (fields : list (jsstring * jsval))
  : list (jsstring * jsval) :=
  match fields with
  | [] => [(key, v)]
  | (k, x) :: rest =>
      if JsString.eqb k key then (k, v) :: rest
      else (k, x) :: set_field key v rest
  end.

(** What getMetadata resolves with: the value received from the gateway,
    after the assignment of the string to its property image. *)
Record Assigned : Type := {
  target : jsval;
  image_url : jsstring
}.

(** The assignment [metadata.image = url] in the strict code of a class:
    an object or an array takes the property, a primitive raises. *)
Definition assign_image (metadata : jsval) (url : jsstring) : outcome Assigned :=
  match metadata with
  | JObject _ | JArray _ => Returns {| target := metadata; image_url := url |}
  | _ => Throws TypeError
  end.

(** The resulting object, when the value received is one. *)
Definition assigned_object (a : Assigned) : option jsval :=
  match target a with
  | JObject fields =>
      Some (JObject (set_field (js "image") (JString (image_url a)) fields))
  | _ => None
  end.

Definition and_then {A B} (o : outcome A) (f : A -> outcome B) : outcome B :=
  match o with
  | Returns a => f a
  | Throws e => Throws e
  end.

Module GatewayMetadata.
Section GatewayMetadata.
Context {C : Collaborators}.
Variable options : Options.

(** Buffer.from(ipfsUrl, 'base64').toString() *)
Variable base64_decode : jsstring -> jsstring.

Definition getMetadata (order : list nat) (ipfsUrl : jsstring)
  : option (outcome Assigned) :=
  let ipfsUrl := base64_decode ipfsUrl in
  match Base.extractCID (VStr ipfsUrl) with
  | Throws error => Some (Throws error)
  | Returns CID =>
      match Gateway.get options order (Gateway.template CID) with
      | None => None
      | Some (Throws error) => Some (Throws error)
      | Some (Returns metadata) =>
          Some
            (and_then (read_named metadata (js "image")) (fun image_field =>
             and_then (if js_truthy image_field then Returns image_field
                       else read_named metadata (js "CID")) (fun chosen =>
             and_then (extractCID_any chosen) (fun image =>
             assign_image metadata
               (GatewayImage.getImageUrl (Gateway.template image))))))
      end
  end.

End GatewayMetadata.
End GatewayMetadata.

(** ** IpfsService.uploadAndPin *)

(** Multer.File, of which the code reads the buffer and, for a metadata
    object that is no path of the _Pin schema, the name, type and size. *)
Record MulterFile : Type := {
  file_buffer : jsstring;
  originalname : jsstring;
  mimetype : jsstring;
  size : nat
}.

Module Upload.
Section Upload.
Context {C : Collaborators}.

(** client.addAll(stream, { pin: true }): the CIDs of the results it
    yields, in order. *)
Variable client_addAll : jsstring -> Daemon -> outcome (list jsstring) * Daemon.

Definition lastResult (results : list jsstring) : option jsstring :=
  match rev results with
  | [] => None
  | cid :: _ => Some cid
  end.

Definition uploadAndPin (file : MulterFile) (session : Entity) : M jsstring :=
  results <- client (client_addAll (file_buffer file)) ;;
  match lastResult results with
  | None => throw TypeError             (* lastResult.cid on undefined *)
  | Some cid =>
      now <- date_now ;;
      _ <- create {| pin_cid := cid; pin_owner := walletId session;
                     pin_timestamp := now |} ;;
      ret cid
  end.

End Upload.
End Upload.

(** The content as get hands it over: parsed when it is JSON, raw otherwise. *)
Definition parsed_or_raw {C : Collaborators} (content : jsstring) : jsval :=
  match JSON_parse content with
  | Some v => v
  | None => JString content
  end.

(** ** Classes of patterns *)

(** No capturing group in the pattern. *)
Fixpoint groupless (r : regex) : bool :=
  match r with
  | Lit _ | Cls _ | Plus _ => true
  | Seq r1 r2 => groupless r1 && groupless r2
  | Opt r1 => groupless r1
  | Grp _ _ => false
  end.

(** No part of the pattern matches a question mark. *)
Fixpoint stops_at_question (r : regex) : bool :=
  match r with
  | Lit p => negb (contains p "?"%char)
  | Cls cs | Plus cs => negb (in_charset cs "?"%char)
  | Seq r1 r2 => stops_at_question r1 && stops_at_question r2
  | Opt r1 | Grp _ r1 => stops_at_question r1
  end.

(** Every error recorded is the error of the promise at its index. *)
Definition recorded {A} (promises : list (outcome A)) (errors : list (option error))
  : Prop :=
  length errors = length promises
  /\ forall j x, nth_error errors j = Some (Some x) ->
                 nth_error promises j = Some (Throws x).

(** ** IpfsModule.forRootAsync *)

Module IpfsModule.

(** The provider IPFS_NODE: new IPFS.Node(pinModel, options, httpService).
    The constructor is given three of its four arguments, so the node
    the module builds has no event emitter; the rest is as configured. *)
Definition forRootAsync (C : Collaborators) : Collaborators := {|
  Daemon := @Daemon C;
  client_add := @client_add C;
  client_cat := @client_cat C;
  client_pin_rm := @client_pin_rm C;
  validate := @validate C;
  has_eventEmitter := false;
  subscribers := @subscribers C;
  JSON_parse := @JSON_parse C;
  FileType := @FileType C;
  fileTypeFromBuffer := @fileTypeFromBuffer C;
  http_get := @http_get C;
  http_get_arraybuffer := @http_get_arraybuffer C
|}.

(** The same ledger, daemon, events and clock, seen by the node built. *)
Definition world {C : Collaborators} (w : @World C) : @World (forRootAsync C) :=
  {| ledger := ledger w; daemon := (daemon w : @Daemon (forRootAsync C));
     emitted := emitted w; clock := clock w |}.

End IpfsModule.

(** ** Samples for uploads and metadata *)

Module SampleMore.

(** addAll of the sample daemon: one result, the block kept. *)
Definition addAll (up : bool) (content : jsstring) (d : Sample.blocks)
  : outcome (list jsstring) * Sample.blocks :=
  if up
  then (Returns [Sample.cid_of content], (Sample.cid_of content, content) :: d)
  else (Throws Sample.unreachable, d).

Definition file : MulterFile :=
  {| file_buffer := js "hello"; originalname := js "hello.txt";
     mimetype := js "text/plain"; size := 5 |}.

Definition metadata : jsval :=
  JObject [(js "name", JString (js "token")); (js "image", JString (js "ipfs://Qmimg"))].

(** The sample deployment with a gateway that serves the metadata. *)
Definition collaborators : Collaborators := {|
  Daemon := Sample.blocks;
  client_add := @client_add (Sample.collaborators true);
  client_cat := @client_cat (Sample.collaborators true);
  client_pin_rm := @client_pin_rm (Sample.collaborators true);
  validate _ := None;
  has_eventEmitter := true;
  subscribers _ := None;
  JSON_parse _ := None;
  FileType := unit;
  fileTypeFromBuffer _ := None;
  http_get url :=
    if JsString.eqb url (js "https://up.example/ipfs/Qmmeta")
    then Returns {| data := metadata |}
    else Throws (ExternalError 504);
  http_get_arraybuffer _ := Throws (ExternalError 504)
|}.

Definition base64_decode (s : jsstring) : jsstring :=
  if JsString.eqb s (js "aXBmczovL1FtbWV0YQ==") then js "ipfs://Qmmeta" else [].

End SampleMore.

(** ** The formats of the docstring of extractCID *)

Example extractCID_ipfs_protocol :
  Base.extractCID (VStr (js "ipfs://QmHash")) = Returns (VStr (js "QmHash")).
Proof. reflexivity. Qed.

Example extractCID_http_gateway :
  Base.extractCID (VStr (js "https://ipfs.io/ipfs/QmHash")) = Returns (VStr (js "QmHash")).
Proof. reflexivity. Qed.

Example extractCID_dweb_link :
  Base.extractCID (VStr (js "https://QmHash.ipfs.dweb.link/")) = Returns (VStr (js "QmHash")).
Proof. reflexivity. Qed.

Example extractCID_direct :
  Base.extractCID (VStr (js "QmHash")) = Returns (VStr (js "QmHash")).
Proof. reflexivity. Qed.

(** The repetition is greedy: the last /ipfs/ of the path ends the first
    group; the query string is cut off whatever the form; an input that ends
    like the subdomain form without being one gives undefined. *)
Example extractCID_last_ipfs_segment :
  Base.extractCID (VStr (js "https://gw/ipfs/a/ipfs/b")) = Returns (VStr (js "b")).
Proof. reflexivity. Qed.

Example extractCID_cuts_query :
  Base.extractCID (VStr (js "a?b")) = Returns (VStr (js "a")).
Proof. reflexivity. Qed.

Example extractCID_undefined :
  Base.extractCID (VStr (js "xipfs.dweb.link/")) = Returns VUndefined.
Proof. reflexivity. Qed.

Example extractCID_scheme_only_throws :
  Base.extractCID (VStr (js "ipfs://")) = Throws TypeError.
Proof. reflexivity. Qed.

(** ** Facts about strings *)

Section StringFacts.

Lemma eqb_refl (a : jsstring) : JsString.eqb a a = true.
Proof.
  induction a as [|x a IH]; simpl; [reflexivity|].
  now rewrite Ascii.eqb_refl, IH.
Qed.

Lemma eqb_eq (a b : jsstring) : JsString.eqb a b = true -> a = b.
Proof.
  revert b; induction a as [|x a IH]; intros [|y b]; simpl; try discriminate; auto.
  intros H. apply andb_true_iff in H as [Hxy Hab].
  apply Ascii.eqb_eq in Hxy. f_equal; auto.
Qed.

Lemma startsWith_app (p t : jsstring) : startsWith (p ++ t) p = true.
Proof.
  induction p as [|x p IH]; simpl; [reflexivity|].
  now rewrite Ascii.eqb_refl, IH.
Qed.

Lemma startsWith_prefix (s p : jsstring) :
  startsWith s p = true -> exists t, s = p ++ t.
Proof.
  revert s; induction p as [|x p IH]; intros s H.
  - now exists s.
  - destruct s as [|y s]; simpl in H; [discriminate|].
    apply andb_true_iff in H as [Hxy Hs].
    apply Ascii.eqb_eq in Hxy; subst y.
    destruct (IH _ Hs) as [t ->]. now exists t.
Qed.

Lemma startsWith_In (s p : jsstring) (c : ascii) :
  startsWith s p = true -> In c p -> In c s.
Proof.
  intros H Hc. destruct (startsWith_prefix _ _ H) as [t ->].
  apply in_or_app; now left.
Qed.

(** A pattern found at the head of [X ++ t] either lies within [X] or
    reaches the first character of [t]. *)
Lemma startsWith_split (p X t : jsstring) :
  startsWith (X ++ t) p = true ->
  startsWith X p = true \/ exists d, hd_error t = Some d /\ In d p.
Proof.
  revert X; induction p as [|x p IH]; intros X H; [now left|].
  destruct X as [|y X]; simpl in H.
  - destruct t as [|d t]; [discriminate|].
    apply andb_true_iff in H as [Hxd _]. apply Ascii.eqb_eq in Hxd; subst d.
    right. exists x. split; [reflexivity | now left].
  - apply andb_true_iff in H as [Hxy H].
    destruct (IH _ H) as [HX | (d & Hd & Hin)].
    + left. simpl. now rewrite Hxy, HX.
    + right. exists d. split; [assumption | now right].
Qed.

(** The same, with the part of the pattern that reaches into [t]. *)
Lemma startsWith_overlap (p X t : jsstring) :
  startsWith (X ++ t) p = true ->
  startsWith X p = true
  \/ exists p2, p = X ++ p2 /\ p2 <> [] /\ startsWith t p2 = true.
Proof.
  revert X; induction p as [|x p IH]; intros X H; [now left|].
  destruct X as [|y X].
  - right. exists (x :: p). split; [reflexivity|]. split; [discriminate | exact H].
  - simpl in H. apply andb_true_iff in H as [Hxy H].
    destruct (IH _ H) as [HX | (p2 & -> & Hp2 & Ht)].
    + left. simpl. now rewrite Hxy, HX.
    + right. exists p2. apply Ascii.eqb_eq in Hxy; subst y. auto.
Qed.

(** No match at the head of [X ++ t] when the pattern needs a character
    that [X] lacks and [t] does not begin with a character of the pattern. *)
Lemma startsWith_blocked (p X t : jsstring) (c : ascii) :
  In c p -> ~ In c X ->
  (forall d, hd_error t = Some d -> ~ In d p) ->
  startsWith (X ++ t) p = false.
Proof.
  intros Hc HX Ht.
  destruct (startsWith (X ++ t) p) eqn:E; [|reflexivity].
  destruct (startsWith_split _ _ _ E) as [H | (d & Hd & Hin)].
  - exfalso. apply HX. eapply startsWith_In; eassumption.
  - exfalso. eapply Ht; eassumption.
Qed.

Lemma skipn_length_app (p t : jsstring) : skipn (length p) (p ++ t) = t.
Proof. induction p; simpl; auto. Qed.

Lemma consumed_app (a b : jsstring) : consumed (a ++ b) b = a.
Proof.
  unfold consumed. rewrite length_app.
  replace (length a + length b - length b) with (length a) by lia.
  rewrite firstn_app, Nat.sub_diag, firstn_all. simpl. apply app_nil_r.
Qed.

Lemma consumed_all (a : jsstring) : consumed a [] = a.
Proof. rewrite <- (app_nil_r a) at 1. apply consumed_app. Qed.

Lemma endsWith_app (a suf : jsstring) : endsWith (a ++ suf) suf = true.
Proof.
  unfold endsWith. rewrite length_app.
  replace (length a + length suf - length suf) with (length a) by lia.
  rewrite skipn_length_app, eqb_refl, andb_true_r.
  apply Nat.leb_le. lia.
Qed.

Lemma endsWith_suffix (s suf : jsstring) :
  endsWith s suf = true -> exists a, s = a ++ suf.
Proof.
  unfold endsWith. intros H. apply andb_true_iff in H as [_ H].
  apply eqb_eq in H.
  exists (firstn (length s - length suf) s).
  rewrite <- H at 2. symmetry. apply firstn_skipn.
Qed.

Lemma endsWith_In (s suf : jsstring) (c : ascii) :
  endsWith s suf = true -> In c suf -> In c s.
Proof.
  intros H Hc. destruct (endsWith_suffix _ _ H) as [a ->].
  apply in_or_app; now right.
Qed.

Lemma endsWith_lacking (s suf : jsstring) (c : ascii) :
  In c suf -> ~ In c s -> endsWith s suf = false.
Proof.
  intros Hc Hs. destruct (endsWith s suf) eqn:E; [|reflexivity].
  exfalso. apply Hs. eapply endsWith_In; eassumption.
Qed.

(** [replace_first] walks over a prefix at no position of which the
    pattern starts. *)
Lemma replace_first_app (pat A t : jsstring) :
  (forall a b, A = a ++ b -> b <> [] -> startsWith (b ++ t) pat = false) ->
  replace_first pat (A ++ t) = A ++ replace_first pat t.
Proof.
  induction A as [|x A IH]; intros H; [reflexivity|].
  simpl app.
  assert (E : startsWith (x :: A ++ t) pat = false)
    by (apply (H [] (x :: A)); [reflexivity | discriminate]).
  destruct pat as [|y pat]; [discriminate|].
  cbn [replace_first]. rewrite E. f_equal. apply IH.
  intros a b -> Hb. apply (H (x :: a) b); [reflexivity | assumption].
Qed.

Lemma replace_first_absent (pat A : jsstring) :
  pat <> [] ->
  (forall a b, A = a ++ b -> startsWith b pat = false) ->
  replace_first pat A = A.
Proof.
  intros Hp H. rewrite <- (app_nil_r A) at 1.
  rewrite replace_first_app.
  - destruct pat; [contradiction|]. simpl. apply app_nil_r.
  - intros a b E _. rewrite app_nil_r. eapply H; eassumption.
Qed.

End StringFacts.

(** ** Facts about the matcher *)

Section MatcherFacts.
Variable R : Type.
Implicit Types (k : jsstring -> option R) (cs : charset).

Lemma star_stop cs c s k :
  in_charset cs c = false -> star cs (c :: s) k = k (c :: s).
Proof. intros H. simpl. now rewrite H. Qed.

Lemma star_cons_none cs c s k :
  star cs s k = None -> star cs (c :: s) k = k (c :: s).
Proof. intros H. simpl. rewrite H. now destruct (in_charset cs c). Qed.

(** Greedy: a success found after the run [X] is kept. *)
Lemma star_app_some cs X t k r :
  Forall (fun c => in_charset cs c = true) X ->
  star cs t k = Some r -> star cs (X ++ t) k = Some r.
Proof.
  induction 1 as [|x X Hx _ IH]; intros Ht; [assumption|].
  simpl. now rewrite Hx, (IH Ht).
Qed.

(** Backtracking over [X] finds nothing when the continuation fails at
    every position inside it and the repetition fails after it. *)
Lemma star_app_none cs X t k :
  star cs t k = None ->
  (forall a b, X = a ++ b -> b <> [] -> k (b ++ t) = None) ->
  star cs (X ++ t) k = None.
Proof.
  intros Ht. induction X as [|x X IH]; intros H; [assumption|].
  simpl app. rewrite star_cons_none.
  - apply (H [] (x :: X)); [reflexivity | discriminate].
  - apply IH. intros a b -> Hb. apply (H (x :: a) b); [reflexivity | assumption].
Qed.

Lemma star_none cs s k :
  (forall a b, s = a ++ b -> k b = None) -> star cs s k = None.
Proof.
  intros H. rewrite <- (app_nil_r s).
  apply star_app_none.
  - simpl. apply (H s []). now rewrite app_nil_r.
  - intros a b E _. rewrite app_nil_r. eapply H; eassumption.
Qed.

(** Whatever the repetition returns, the continuation returned it at some
    suffix of the input. *)
Lemma star_result cs s k r :
  star cs s k = Some r -> exists a b, s = a ++ b /\ k b = Some r.
Proof.
  induction s as [|x s IH]; simpl; intros H.
  - now exists [], [].
  - destruct (in_charset cs x).
    + destruct (star cs s k) as [r'|].
      * destruct (IH H) as (a & b & -> & Hb).
        now exists (x :: a), b.
      * now exists [], (x :: s).
    + now exists [], (x :: s).
Qed.

Lemma star_total cs s k :
  (forall b, k b <> None) -> star cs s k <> None.
Proof.
  intros H. induction s as [|x s IH]; simpl; [apply H|].
  destruct (in_charset cs x); [|apply H].
  destruct (star cs s k); [discriminate | apply H].
Qed.

Implicit Types (K : jsstring -> captures -> option R).

Lemma run_Lit p s caps K :
  run (Lit p) s caps K
  = if startsWith s p then K (skipn (length p) s) caps else None.
Proof. reflexivity. Qed.

Lemma run_Seq r1 r2 s caps K :
  run (Seq r1 r2) s caps K = run r1 s caps (fun s' caps' => run r2 s' caps' K).
Proof. reflexivity. Qed.

Lemma run_Opt r1 s caps K :
  run (Opt r1) s caps K
  = match run r1 s caps K with Some v => Some v | None => K s caps end.
Proof. reflexivity. Qed.

Lemma run_Grp n r1 s caps K :
  run (Grp n r1) s caps K
  = run r1 s caps (fun s' caps' => K s' (set_capture n (consumed s s') caps')).
Proof. reflexivity. Qed.

(** One-or-more, greedy: after a non-empty run [X] of the class, a success
    of the repetition over the rest is the result. *)
Lemma run_plus_app cs X t caps K r :
  X <> [] ->
  Forall (fun c => in_charset cs c = true) X ->
  star cs t (fun s => K s caps) = Some r ->
  run (Plus cs) (X ++ t) caps K = Some r.
Proof.
  intros HX HF Ht. destruct X as [|x X]; [contradiction|].
  inversion HF as [|? ? Hx HF']; subst.
  simpl. rewrite Hx. now apply star_app_some.
Qed.

(** Every result of [run] was produced by its continuation. *)
Lemma run_result (r : regex) :
  forall s caps K v,
    run r s caps K = Some v -> exists s' caps', K s' caps' = Some v.
Proof.
  induction r as [p|cs|cs|r1 IH1 r2 IH2|r1 IH1|n r1 IH1]; intros s caps K v; simpl.
  - destruct (startsWith s p); [eauto | discriminate].
  - destruct s as [|c s]; [discriminate|].
    destruct (in_charset cs c); [eauto | discriminate].
  - destruct s as [|c s]; [discriminate|].
    destruct (in_charset cs c); [|discriminate].
    intros H. apply star_result in H as (a & b & _ & H). eauto.
  - intros H. apply IH1 in H as (s1 & c1 & H). now apply IH2 in H.
  - destruct (run r1 s caps K) eqn:E.
    + intros [= <-]. now apply IH1 in E.
    + eauto.
  - intros H. apply IH1 in H as (s1 & c1 & H). eauto.
Qed.

End MatcherFacts.

Section MatcherWidth.
Variable R : Type.

Lemma run_width (r : regex) :
  forall s caps (K : jsstring -> captures -> option R) v,
    run r s caps K = Some v ->
    exists s' caps', K s' caps' = Some v /\ min_width r + length s' <= length s.
Proof.
  induction r as [p|cs|cs|r1 IH1 r2 IH2|r1 IH1|n r1 IH1]; intros s caps K v; simpl.
  - destruct (startsWith s p) eqn:E; [|discriminate].
    intros H. exists (skipn (length p) s), caps. split; [assumption|].
    destruct (startsWith_prefix _ _ E) as [t ->].
    rewrite skipn_length_app, length_app. lia.
  - destruct s as [|c s]; [discriminate|].
    destruct (in_charset cs c); [|discriminate].
    intros H. exists s, caps. split; [assumption | simpl; lia].
  - destruct s as [|c s]; [discriminate|].
    destruct (in_charset cs c); [|discriminate].
    intros H. apply star_result in H as (a & b & -> & H).
    exists b, caps. split; [assumption|]. simpl. rewrite length_app. lia.
  - intros H. apply IH1 in H as (s1 & c1 & H & L1).
    apply IH2 in H as (s2 & c2 & H & L2).
    exists s2, c2. split; [assumption | lia].
  - destruct (run r1 s caps K) eqn:E.
    + intros [= <-]. apply IH1 in E as (s1 & c1 & H & L1).
      exists s1, c1. split; [assumption | lia].
    + intros H. exists s, caps. split; [assumption | lia].
  - intros H. apply IH1 in H as (s1 & c1 & H & L1).
    exists s1, (set_capture n (consumed s s1) c1). split; [assumption | lia].
Qed.

(** When the continuation fails at every suffix shorter than the whole
    input, the greedy repetition ends up with the empty run. *)
Lemma star_first cs t (k : jsstring -> option R) :
  (forall a b, t = a ++ b -> a <> [] -> k b = None) ->
  star cs t k = k t.
Proof.
  intros H. destruct t as [|x t]; [reflexivity|].
  apply star_cons_none. apply star_none.
  intros a b ->. apply (H (x :: a) b); [reflexivity | discriminate].
Qed.

End MatcherWidth.

Section UrlFacts.

Lemma contains_false (s : jsstring) (c : ascii) :
  contains s c = false <-> ~ In c s.
Proof.
  unfold contains. split.
  - intros H Hin.
    assert (E : existsb (Ascii.eqb c) s = true)
      by (apply existsb_exists; exists c; split; [assumption | apply Ascii.eqb_refl]).
    congruence.
  - intros H. destruct (existsb (Ascii.eqb c) s) eqn:E; [|reflexivity].
    apply existsb_exists in E as (x & Hx & Hcx).
    apply Ascii.eqb_eq in Hcx; subst x. contradiction.
Qed.

Lemma nonempty_true (s : jsstring) : nonempty s = true <-> s <> [].
Proof. destruct s; simpl; split; congruence. Qed.

Lemma lacking_in_class (s : jsstring) (c : ascii) :
  ~ In c s -> Forall (fun x => in_charset (CNot c) x = true) s.
Proof.
  intros H. apply Forall_forall. intros x Hx. simpl.
  destruct (Ascii.eqb_spec x c) as [->|]; [contradiction | reflexivity].
Qed.

Lemma cid_token_spec (X : jsstring) :
  cid_token X = true -> X <> [] /\ ~ In "?"%char X /\ ~ In "/"%char X.
Proof.
  unfold cid_token. intros H.
  apply andb_true_iff in H as [H H3]. apply andb_true_iff in H as [H1 H2].
  apply negb_true_iff in H2, H3.
  now rewrite nonempty_true in H1; rewrite contains_false in H2, H3.
Qed.

Lemma host_name_spec (h : jsstring) :
  host_name h = true ->
  h <> [] /\ ~ In "?"%char h /\ ~ In "/"%char h /\ ~ In ":"%char h.
Proof.
  unfold host_name. intros H.
  apply andb_true_iff in H as [H H4]. apply andb_true_iff in H as [H H3].
  apply andb_true_iff in H as [H1 H2].
  apply negb_true_iff in H2, H3, H4.
  now rewrite nonempty_true in H1; rewrite contains_false in H2, H3, H4.
Qed.

Lemma query_part_hd (qs : jsstring) (d : ascii) :
  query_part qs = true -> hd_error qs = Some d -> d = "?"%char.
Proof.
  destruct qs as [|c qs]; simpl; [discriminate|].
  intros H [= <-]. now apply Ascii.eqb_eq.
Qed.

Lemma query_part_star (R : Type) (qs : jsstring) (k : jsstring -> option R) :
  query_part qs = true -> star (CNot "?"%char) qs k = k qs.
Proof.
  destruct qs as [|c qs]; simpl; [reflexivity|].
  intros H. apply Ascii.eqb_eq in H; subst c. reflexivity.
Qed.

Lemma query_part_replace (qs : jsstring) :
  query_part qs = true -> query_part (replace_first (js "ipfs://") qs) = true.
Proof.
  destruct qs as [|c qs]; [reflexivity|].
  simpl. intros H. apply Ascii.eqb_eq in H; subst c. reflexivity.
Qed.

End UrlFacts.

(** ** Facts about extractCID *)

Section ExtractFacts.

Let notq := CNot "?"%char.
Let group1 : regex :=
  Grp 1 (Seq (Lit (js "https://")) (Seq (Plus notq) (Lit (js "/ipfs/")))).
Let group2 : regex := Grp 2 (Plus notq).

(** The second group takes the longest run without a question mark. *)
Lemma group2_run (X qs : jsstring) (caps : captures) :
  X <> [] -> ~ In "?"%char X -> query_part qs = true ->
  run group2 (X ++ qs) caps accept
  = Some (qs, set_capture 2 X caps).
Proof.
  intros HX Hq Hqs. unfold group2. rewrite run_Grp.
  erewrite run_plus_app; [reflexivity | assumption | now apply lacking_in_class |].
  rewrite query_part_star by assumption.
  unfold accept. now rewrite consumed_app.
Qed.

Lemma group2_fails_empty (caps : captures) :
  run group2 [] caps accept = None.
Proof. reflexivity. Qed.

(** The first group matches only inputs of the gateway path form. *)
Lemma group1_needs_gateway_form (s : jsstring) (caps : captures) :
  ~ gateway_path_form s ->
  run group1 s caps (fun s' caps' => run group2 s' caps' accept) = None.
Proof.
  intros Hform.
  destruct (run group1 s caps _) as [v|] eqn:E; [exfalso | reflexivity].
  apply Hform. unfold group1 in E. cbn [run] in E.
  destruct (startsWith s (js "https://")) eqn:Hs; [|discriminate].
  destruct (startsWith_prefix _ _ Hs) as [s1 ->].
  rewrite skipn_length_app in E.
  destruct s1 as [|c s1]; [discriminate|].
  destruct (in_charset notq c); [|discriminate].
  apply star_result in E as (a & b & -> & E).
  destruct (startsWith b (js "/ipfs/")) eqn:Hb; [|discriminate].
  destruct (startsWith_prefix _ _ Hb) as [x ->].
  rewrite skipn_length_app in E.
  exists (c :: a), x. split; [discriminate|]. split.
  - intros ->. discriminate.
  - reflexivity.
Qed.

(** Inputs outside the gateway path form: the whole input up to the query
    string is the second group. *)
Lemma regex_plain (X qs : jsstring) :
  X <> [] -> ~ In "?"%char X -> query_part qs = true ->
  ~ gateway_path_form (X ++ qs) ->
  run Base.regex (X ++ qs) no_captures accept
  = Some (qs, set_capture 2 X no_captures).
Proof.
  intros HX Hq Hqs Hform. unfold Base.regex.
  change (run (Seq (Opt group1) group2) (X ++ qs) no_captures accept
          = Some (qs, set_capture 2 X no_captures)).
  rewrite run_Seq, run_Opt.
  rewrite group1_needs_gateway_form by assumption.
  now apply group2_run.
Qed.

Lemma lit_blocked (p X qs : jsstring) :
  In "/"%char p -> ~ In "?"%char p ->
  ~ In "/"%char X -> query_part qs = true ->
  startsWith (X ++ qs) p = false.
Proof.
  intros Hp Hq HX Hqs. apply startsWith_blocked with (c := "/"%char); auto.
  intros d Hd Hin. apply (query_part_hd _ Hqs) in Hd. now subst d.
Qed.

(** The gateway path form: the first group takes everything up to the
    last /ipfs/, the second the path segment that follows. *)
Lemma regex_gateway (h X qs : jsstring) :
  h <> [] -> ~ In "?"%char h ->
  X <> [] -> ~ In "?"%char X -> ~ In "/"%char X ->
  query_part qs = true ->
  exists caps,
    run Base.regex (js "https://" ++ h ++ js "/ipfs/" ++ X ++ qs)
        no_captures accept = Some (qs, caps)
    /\ caps 2 = Some X.
Proof.
  intros Hh Hhq HX HXq HXs Hqs.
  change Base.regex with (Seq (Opt group1) group2).
  rewrite run_Seq, run_Opt.
  unfold group1 at 1.
  rewrite run_Grp, run_Seq, run_Lit, startsWith_app, skipn_length_app, run_Seq.
  set (s := js "https://" ++ h ++ js "/ipfs/" ++ X ++ qs).
  set (k := fun s' caps' => run (Lit (js "/ipfs/")) s' caps' _).
  assert (Hfail : forall b, ~ In "/"%char b -> k (b ++ qs) no_captures = None).
  { intros b Hb. unfold k. rewrite run_Lit, lit_blocked; auto.
    - simpl; tauto.
    - simpl; intuition discriminate. }
  assert (Hnone : star notq (X ++ qs) (fun s' => k s' no_captures) = None).
  { apply star_app_none.
    - rewrite query_part_star by assumption. apply (Hfail []). auto.
    - intros a b -> _. apply Hfail. intros Hin. apply HXs.
      apply in_or_app. now right. }
  assert (Hstar : star notq (js "/ipfs/" ++ X ++ qs) (fun s' => k s' no_captures)
                  = Some (qs, set_capture 2 X
                                (set_capture 1 (consumed s (X ++ qs)) no_captures))).
  { change (js "/ipfs/") with ("/" :: "i" :: "p" :: "f" :: "s" :: ["/"])%char.
    cbn [app].
    rewrite star_cons_none.
    - unfold k at 1. rewrite run_Lit.
      change ("/" :: "i" :: "p" :: "f" :: "s" :: "/" :: X ++ qs)%char
        with (js "/ipfs/" ++ X ++ qs).
      rewrite startsWith_app, skipn_length_app.
      now apply group2_run.
    - repeat (rewrite star_cons_none; [reflexivity|]).
      rewrite star_cons_none by exact Hnone.
      unfold k. rewrite run_Lit.
      change (startsWith ("/" :: X ++ qs) (js "/ipfs/"))%char
        with (startsWith (X ++ qs) (js "ipfs/")).
      rewrite lit_blocked; auto.
      + simpl; tauto.
      + simpl; intuition discriminate. }
  erewrite run_plus_app;
    [ | assumption | now apply lacking_in_class | exact Hstar ].
  eexists. split; [reflexivity|]. reflexivity.
Qed.

Let dweb_tail : regex :=
  Seq (Cls CDot)
      (Seq (Lit (js "ipfs"))
           (Seq (Cls CDot)
                (Seq (Lit (js "dweb")) (Seq (Cls CDot) (Lit (js "link/")))))).

(** The subdomain form: the label before .ipfs.dweb.link/ is the group. *)
Lemma dweb_run (X : jsstring) :
  X <> [] -> ~ In "?"%char X ->
  run Base.dweb (js "https://" ++ X ++ js ".ipfs.dweb.link/") no_captures accept
  = Some ([], set_capture 1 X no_captures).
Proof.
  intros HX Hq.
  change Base.dweb with (Seq (Lit (js "https://")) (Seq (Grp 1 (Plus notq)) dweb_tail)).
  rewrite run_Seq, run_Lit, startsWith_app, skipn_length_app, run_Seq, run_Grp.
  set (t := js ".ipfs.dweb.link/").
  erewrite run_plus_app; [reflexivity | assumption | now apply lacking_in_class |].
  rewrite star_first.
  - rewrite consumed_app. reflexivity.
  - intros a b E Ha.
    destruct (run dweb_tail b _ accept) as [v|] eqn:Hv; [exfalso | reflexivity].
    apply run_width in Hv as (s' & caps' & _ & L).
    apply (f_equal (@length ascii)) in E. rewrite length_app in E.
    destruct a; [contradiction|]. simpl in E, L. lia.
Qed.

End ExtractFacts.

Section ExecFacts.

Lemma exec_unfold (r : regex) (n : nat) (s : jsstring) :
  exec r n s
  = match run r s no_captures accept with
    | Some res => Some (match_array n s res)
    | None => match s with [] => None | _ :: s' => exec r n s' end
    end.
Proof. destruct s; reflexivity. Qed.

(** extractCID once the match of the first pattern is known. *)
Lemma extractCID_of_run (u rest c : jsstring) (caps : captures) :
  u <> [] ->
  run Base.regex (replace_first (js "ipfs://") u) no_captures accept
  = Some (rest, caps) ->
  caps 2 = Some c ->
  Base.extractCID (VStr u)
  = if endsWith c (js "ipfs.dweb.link/")
    then Returns (lodash_nth (exec Base.dweb 1 c) 1)
    else Returns (VStr c).
Proof.
  intros Hu Hrun Hc. unfold Base.extractCID.
  destruct u as [|x u]; [contradiction|]. cbn [truthy].
  rewrite exec_unfold, Hrun. unfold match_array, lodash_nth.
  cbn [nth_error seq map snd]. rewrite Hc. reflexivity.
Qed.

Lemma replace_first_skip (pat s : jsstring) (c : ascii) :
  startsWith (c :: s) pat = false ->
  replace_first pat (c :: s) = c :: replace_first pat s.
Proof. intros H. cbn [replace_first]. now rewrite H. Qed.

Lemma gateway_path_form_slash (s : jsstring) :
  gateway_path_form s -> In "/"%char s.
Proof. intros (h & x & _ & _ & ->). simpl. tauto. Qed.

End ExecFacts.

Section Shapes.

Let scheme := js "ipfs://".

Lemma scheme_slash : In "/"%char scheme.
Proof. simpl; tauto. Qed.

Lemma suffix_lacking (A a b : jsstring) (c : ascii) :
  A = a ++ b -> ~ In c A -> ~ In c b.
Proof. intros -> H Hin. apply H. apply in_or_app. now right. Qed.

(** No scheme starts inside a token without a slash, whatever follows it
    after a character foreign to the scheme. *)
Lemma replace_first_token (X t : jsstring) :
  ~ In "/"%char X ->
  (forall d, hd_error t = Some d -> ~ In d scheme) ->
  replace_first scheme (X ++ t) = X ++ replace_first scheme t.
Proof.
  intros HX Ht. apply replace_first_app. intros a b E _.
  apply startsWith_blocked with (c := "/"%char); auto using scheme_slash.
  eapply suffix_lacking; eassumption.
Qed.

Lemma replace_first_bare (X : jsstring) :
  ~ In "/"%char X -> replace_first scheme X = X.
Proof.
  intros HX. rewrite <- (app_nil_r X) at 1.
  rewrite replace_first_token; [now rewrite app_nil_r | assumption | discriminate].
Qed.

Lemma token_not_gateway (X : jsstring) :
  ~ In "/"%char X -> ~ gateway_path_form X.
Proof. intros HX Hf. apply HX. now apply gateway_path_form_slash. Qed.

Lemma extractCID_bare (X : jsstring) :
  cid_token X = true -> Base.extractCID (VStr X) = Returns (VStr X).
Proof.
  intros H. apply cid_token_spec in H as (HX & Hq & Hs).
  rewrite (extractCID_of_run (rest := []) (c := X)
                             (caps := set_capture 2 X no_captures)); auto.
  - rewrite (endsWith_lacking _ _ "/"%char); auto. simpl; tauto.
  - fold scheme. rewrite replace_first_bare by assumption.
    rewrite <- (app_nil_r X) at 1. apply regex_plain; auto.
    rewrite app_nil_r. now apply token_not_gateway.
Qed.

Lemma extractCID_scheme (X : jsstring) :
  cid_token X = true ->
  Base.extractCID (VStr (js "ipfs://" ++ X)) = Returns (VStr X).
Proof.
  intros H. apply cid_token_spec in H as (HX & Hq & Hs).
  rewrite (extractCID_of_run (rest := []) (c := X)
                             (caps := set_capture 2 X no_captures)); auto.
  - rewrite (endsWith_lacking _ _ "/"%char); auto. simpl; tauto.
  - discriminate.
  - change (replace_first (js "ipfs://") (js "ipfs://" ++ X)) with X.
    rewrite <- (app_nil_r X) at 1. apply regex_plain; auto.
    rewrite app_nil_r. now apply token_not_gateway.
Qed.

(** Inside a host no scheme starts, although a slash follows the host. *)
Lemma scheme_not_in_host (b t : jsstring) :
  ~ In ":"%char b -> ~ In "/"%char b ->
  startsWith (b ++ "/"%char :: t) scheme = false.
Proof.
  intros Hc Hs.
  destruct (startsWith (b ++ "/"%char :: t) scheme) eqn:E; [exfalso | reflexivity].
  apply startsWith_overlap in E as [E | (p2 & E & Hp2 & Ht)].
  - apply Hs. eapply startsWith_In; [eassumption | apply scheme_slash].
  - destruct p2 as [|d p2]; [contradiction|].
    simpl in Ht. apply andb_true_iff in Ht as [Hd _].
    apply Ascii.eqb_eq in Hd; subst d.
    unfold scheme in E. simpl in E.
    repeat (destruct b as [|? b];
            [ discriminate E
            | simpl in E; injection E as <- E;
              try (apply Hc; simpl; tauto) ]).
Qed.

Lemma replace_first_gateway (h X qs : jsstring) :
  ~ In ":"%char h -> ~ In "/"%char h -> ~ In "/"%char X ->
  query_part qs = true ->
  replace_first scheme (js "https://" ++ h ++ js "/ipfs/" ++ X ++ qs)
  = js "https://" ++ h ++ js "/ipfs/" ++ X ++ replace_first scheme qs.
Proof.
  intros Hc Hs HX Hqs.
  change (js "https://") with ("h" :: "t" :: "t" :: "p" :: "s" :: ":" :: "/" :: ["/"])%char.
  change (js "/ipfs/") with ("/" :: "i" :: "p" :: "f" :: "s" :: ["/"])%char.
  cbn [app].
  repeat (rewrite replace_first_skip by reflexivity).
  do 8 f_equal.
  rewrite replace_first_app.
  - f_equal. repeat (rewrite replace_first_skip by reflexivity).
    do 6 f_equal. apply replace_first_token; [assumption|].
    intros d Hd Hin. apply (query_part_hd _ Hqs) in Hd; subst d.
    simpl in Hin. intuition discriminate.
  - intros a b E _. apply scheme_not_in_host; eapply suffix_lacking; eassumption.
Qed.

Lemma extractCID_gateway (h X qs : jsstring) :
  host_name h = true -> cid_token X = true -> query_part qs = true ->
  Base.extractCID (VStr (js "https://" ++ h ++ js "/ipfs/" ++ X ++ qs))
  = Returns (VStr X).
Proof.
  intros Hh H Hqs. apply cid_token_spec in H as (HX & Hq & Hs).
  apply host_name_spec in Hh as (Hh & Hhq & Hhs & Hhc).
  destruct (@regex_gateway h X (replace_first scheme qs))
    as (caps & Hrun & Hcaps); auto using query_part_replace.
  rewrite (extractCID_of_run (rest := replace_first scheme qs) (c := X) (caps := caps)); auto.
  - rewrite (endsWith_lacking _ _ "/"%char); auto. simpl; tauto.
  - discriminate.
  - fold scheme. now rewrite replace_first_gateway.
Qed.

Let dsuffix := js ".ipfs.dweb.link/".

Lemma subdomain_not_gateway (X : jsstring) :
  ~ In "/"%char X -> ~ gateway_path_form (js "https://" ++ X ++ dsuffix).
Proof.
  intros HX (h & x & Hh & Hx & E).
  apply app_inv_head in E.
  apply app_eq_app in E as [l [[-> E] | [-> E]]].
  - destruct l as [|c l].
    + discriminate E.
    + injection E as E _. apply HX. apply in_or_app. right. left. congruence.
  - unfold dsuffix in E. simpl in E.
    repeat (destruct l as [|? l]; [discriminate E | simpl in E; injection E as _ E]).
    destruct l; discriminate E.
Qed.

Lemma extractCID_subdomain (X : jsstring) :
  cid_token X = true ->
  Base.extractCID (VStr (js "https://" ++ X ++ js ".ipfs.dweb.link/"))
  = Returns (VStr X).
Proof.
  intros H. apply cid_token_spec in H as (HX & Hq & Hs).
  set (s := js "https://" ++ X ++ js ".ipfs.dweb.link/").
  assert (Hrep : replace_first scheme s = s).
  { unfold s.
    change (js "https://") with ("h" :: "t" :: "t" :: "p" :: "s" :: ":" :: "/" :: ["/"])%char.
    cbn [app]. repeat (rewrite replace_first_skip by reflexivity).
    do 8 f_equal. rewrite replace_first_token; [reflexivity | assumption |].
    intros d [= <-] Hin. simpl in Hin. intuition discriminate. }
  assert (Hs' : ~ In "?"%char s).
  { unfold s. intros Hin. apply in_app_or in Hin as [Hin | Hin].
    - simpl in Hin. intuition discriminate.
    - apply in_app_or in Hin as [Hin | Hin]; [contradiction|].
      simpl in Hin. intuition discriminate. }
  rewrite (extractCID_of_run (rest := []) (c := s)
                             (caps := set_capture 2 s no_captures)); auto.
  - replace (endsWith s (js "ipfs.dweb.link/")) with true.
    + rewrite exec_unfold. unfold s at 1. rewrite dweb_run by assumption.
      reflexivity.
    + symmetry. unfold s.
      change (js ".ipfs.dweb.link/") with (["."%char] ++ js "ipfs.dweb.link/").
      rewrite !app_assoc. apply endsWith_app.
  - discriminate.
  - fold scheme. rewrite Hrep. rewrite <- (app_nil_r s) at 1.
    apply regex_plain; auto; [discriminate|].
    rewrite app_nil_r. now apply subdomain_not_gateway.
Qed.

End Shapes.

(** C1. For a CID token X (non-empty, without the URL delimiters ? and /),
    extractCID returns exactly X on each supported shape: ipfs://X, the
    gateway path form https://<host>/ipfs/X with an optional query string
    (in particular https://gw/ipfs/X?q=1), the subdomain form
    https://X.ipfs.dweb.link/ and the bare X. *)
Theorem extractCID_supported_shapes (X : jsstring) :
  cid_token X = true ->
  Base.extractCID (VStr (js "ipfs://" ++ X)) = Returns (VStr X)
  /\ (forall h qs, host_name h = true -> query_part qs = true ->
       Base.extractCID (VStr (js "https://" ++ h ++ js "/ipfs/" ++ X ++ qs))
       = Returns (VStr X))
  /\ Base.extractCID (VStr (js "https://gw/ipfs/" ++ X ++ js "?q=1")) = Returns (VStr X)
  /\ Base.extractCID (VStr (js "https://" ++ X ++ js ".ipfs.dweb.link/")) = Returns (VStr X)
  /\ Base.extractCID (VStr X) = Returns (VStr X).
Proof.
  intros H. repeat split.
  - now apply extractCID_scheme.
  - intros h qs Hh Hqs. now apply extractCID_gateway.
  - apply (extractCID_gateway (js "gw") X (js "?q=1")); auto.
  - now apply extractCID_subdomain.
  - now apply extractCID_bare.
Qed.

Lemma extractCID_supported_shapes_witness :
  cid_token (js "QmHash") = true
  /\ Base.extractCID (VStr (js "ipfs://QmHash")) = Returns (VStr (js "QmHash"))
  /\ Base.extractCID (VStr (js "https://gw/ipfs/QmHash?q=1")) = Returns (VStr (js "QmHash"))
  /\ Base.extractCID (VStr (js "https://QmHash.ipfs.dweb.link/")) = Returns (VStr (js "QmHash"))
  /\ Base.extractCID (VStr (js "QmHash")) = Returns (VStr (js "QmHash")).
Proof.
  split; [reflexivity|].
  destruct (extractCID_supported_shapes (js "QmHash") eq_refl)
    as (H1 & _ & H2 & H3 & H4).
  repeat split; assumption.
Defined.

(** C10. extractCID(null) is null, and the empty string is treated like
    null: null is returned, nothing is raised. *)
Theorem extractCID_null_and_empty :
  Base.extractCID VNull = Returns VNull
  /\ Base.extractCID (VStr (js "")) = Returns VNull
  /\ Base.extractCID (VStr (js "")) = Base.extractCID VNull.
Proof. repeat split. Qed.

Section Totality.

Let notq := CNot "?"%char.
Let group1 : regex :=
  Grp 1 (Seq (Lit (js "https://")) (Seq (Plus notq) (Lit (js "/ipfs/")))).
Let group2 : regex := Grp 2 (Plus notq).

(** In every match of the first pattern the second group took part. *)
Lemma regex_group2_defined (s : jsstring) (res : jsstring * captures) :
  run Base.regex s no_captures accept = Some res ->
  exists c, snd res 2 = Some c.
Proof.
  change Base.regex with (Seq (Opt group1) group2).
  rewrite run_Seq. intros H.
  apply run_result in H as (s1 & c1 & H).
  unfold group2 in H. rewrite run_Grp in H.
  apply run_result in H as (s2 & c2 & H).
  injection H as <-. now exists (consumed s1 s2).
Qed.

(** The first pattern matches wherever a character other than a question
    mark stands. *)
Lemma regex_matches_at_cid_char (c : ascii) (s : jsstring) :
  in_charset notq c = true ->
  run Base.regex (c :: s) no_captures accept <> None.
Proof.
  intros Hc. change Base.regex with (Seq (Opt group1) group2).
  rewrite run_Seq, run_Opt.
  destruct (run group1 (c :: s) no_captures _); [discriminate|].
  unfold group2. rewrite run_Grp. cbn [run]. rewrite Hc.
  apply star_total. discriminate.
Qed.

Lemma regex_exec_some (s : jsstring) :
  has_cid_char s = true ->
  exists w g1 c, exec Base.regex 2 s = Some [Some w; g1; Some c].
Proof.
  induction s as [|x s IH]; [discriminate|].
  intros H. rewrite exec_unfold.
  destruct (run Base.regex (x :: s) no_captures accept) as [res|] eqn:E.
  - destruct (regex_group2_defined _ E) as [c Hc].
    exists (consumed (x :: s) (fst res)), (snd res 1), c.
    unfold match_array. cbn [seq map]. now rewrite Hc.
  - destruct (in_charset notq x) eqn:Hx.
    + exfalso. now apply (regex_matches_at_cid_char x s).
    + apply IH. unfold has_cid_char in H |- *. cbn [existsb] in H.
      fold notq in H. now rewrite Hx in H.
Qed.

Lemma has_cid_char_nonempty (s : jsstring) : has_cid_char s = true -> s <> [].
Proof. now destruct s. Qed.

End Totality.

(** C7 as stated fails.  On the one-character input "?" the first pattern
    finds no match, [lodash.nth] gives undefined and the call of endsWith on
    it raises a TypeError.  On "a?b", which has none of the recognized forms,
    the second group stops at the question mark and "a" is returned, not the
    input. *)
Lemma extractCID_malformed_inputs :
  (js "?" <> [] /\ Base.extractCID (VStr (js "?")) = Throws TypeError)
  /\ (scheme_stripped (js "a?b") = js "a?b"
      /\ Base.extractCID (VStr (js "a?b")) = Returns (VStr (js "a"))
      /\ js "a" <> js "a?b").
Proof. repeat split; discriminate. Qed.

(** C7, amended. When the scheme-stripped input holds a character other than
    a question mark, extractCID returns normally; when moreover it holds no
    question mark, is not of the gateway path form and does not end with
    ipfs.dweb.link/, the value returned is the scheme-stripped input itself. *)
Theorem extractCID_returns (u : jsstring) :
  has_cid_char (scheme_stripped u) = true ->
  (exists v, Base.extractCID (VStr u) = Returns v)
  /\ (contains (scheme_stripped u) "?"%char = false ->
      ~ gateway_path_form (scheme_stripped u) ->
      endsWith (scheme_stripped u) (js "ipfs.dweb.link/") = false ->
      Base.extractCID (VStr u) = Returns (VStr (scheme_stripped u))).
Proof.
  intros H.
  assert (Hu : u <> []) by (intros ->; discriminate H).
  split.
  - destruct (regex_exec_some _ H) as (w & g1 & c & E).
    unfold Base.extractCID. destruct u as [|x u]; [contradiction|].
    cbn [truthy]. fold (scheme_stripped (x :: u)). rewrite E.
    cbn [lodash_nth nth_error].
    destruct (endsWith c (js "ipfs.dweb.link/")); eauto.
  - intros Hq Hform Hends. apply contains_false in Hq.
    apply has_cid_char_nonempty in H.
    rewrite (extractCID_of_run (rest := []) (c := scheme_stripped u)
               (caps := set_capture 2 (scheme_stripped u) no_captures)); auto.
    + now rewrite Hends.
    + fold (scheme_stripped u).
      rewrite <- (app_nil_r (scheme_stripped u)) at 1.
      apply regex_plain; auto. now rewrite app_nil_r.
Qed.

Lemma extractCID_returns_witness :
  has_cid_char (scheme_stripped (js "ipfs://not a url")) = true
  /\ Base.extractCID (VStr (js "ipfs://not a url")) = Returns (VStr (js "not a url")).
Proof.
  split; [reflexivity|].
  apply (extractCID_returns (js "ipfs://not a url") eq_refl).
  - reflexivity.
  - intros (h & x & _ & _ & E). discriminate E.
  - reflexivity.
Defined.

(** ** Facts about Promise.any *)

Section PromiseAnyFacts.
Variable A : Type.
Implicit Types (promises : list (outcome A)) (errors : list (option error)).

Lemma record_error_length i e errors :
  length (record_error i e errors) = length errors.
Proof.
  revert i; induction errors as [|x errors IH]; intros [|i]; simpl; auto.
Qed.

Lemma record_error_same i e errors :
  i < length errors -> nth_error (record_error i e errors) i = Some (Some e).
Proof.
  revert i; induction errors as [|x errors IH]; intros [|i]; simpl; try lia; auto.
  intros H. apply IH. lia.
Qed.

Lemma record_error_other i j e errors :
  i <> j -> nth_error (record_error i e errors) j = nth_error errors j.
Proof.
  revert i j; induction errors as [|x errors IH]; intros [|i] [|j] H; simpl;
    auto; try congruence.
Qed.


Lemma any_run_some_fulfilled promises order :
  forall errors,
    (exists i a, In i order /\ nth_error promises i = Some (Returns a)) ->
    exists b, any_run promises errors order = Some (Returns b).
Proof.
  induction order as [|j order IH]; intros errors (i & a & Hin & Hi).
  - contradiction.
  - simpl. destruct (nth_error promises j) as [[b|e]|] eqn:Ej.
    + now exists b.
    + apply IH. exists i, a. split; [|assumption].
      destruct Hin as [->|]; [congruence | assumption].
    + apply IH. exists i, a. split; [|assumption].
      destruct Hin as [->|]; [congruence | assumption].
Qed.

Lemma all_rejected_complete promises :
  forall errors,
    length errors = length promises ->
    (forall j, j < length promises ->
               exists x, nth_error errors j = Some (Some x)
                         /\ nth_error promises j = Some (Throws x)) ->
    all_rejected errors = Some (errors_of promises).
Proof.
  induction promises as [|o promises IH]; intros [|x errors] Hlen H;
    try discriminate Hlen; [reflexivity|].
  destruct (H 0) as (e & He & Ho); [simpl; lia|].
  simpl in He, Ho. injection He as ->. injection Ho as ->.
  simpl. rewrite (IH errors); auto.
  intros j Hj. apply (H (S j)). simpl. lia.
Qed.

(** When every promise is rejected and each of them completes, the result
    is rejected with the errors of all of them. *)
Lemma any_run_all_rejected promises order :
  forallb rejected promises = true ->
  forall errors,
    length errors = length promises ->
    (forall j x, nth_error errors j = Some (Some x) ->
                 nth_error promises j = Some (Throws x)) ->
    (forall j, j < length promises ->
               In j order \/ exists x, nth_error errors j = Some (Some x)) ->
    any_run promises errors order
    = Some (Throws (AggregateError (errors_of promises))).
Proof.
  intros Hall. induction order as [|i order IH]; intros errors Hlen Hcons Hcov.
  - simpl. rewrite (all_rejected_complete promises); auto.
    intros j Hj. destruct (Hcov j Hj) as [[] | (x & Hx)].
    exists x. split; [assumption | now apply Hcons].
  - simpl. destruct (nth_error promises i) as [[a|e]|] eqn:Ei.
    + exfalso. apply nth_error_In in Ei.
      rewrite forallb_forall in Hall. now specialize (Hall _ Ei).
    + assert (Hi : i < length errors)
        by (rewrite Hlen; apply nth_error_Some; congruence).
      apply IH.
      * now rewrite record_error_length.
      * intros j x Hj. destruct (Nat.eq_dec i j) as [<-|Hne].
        -- rewrite record_error_same in Hj by assumption. congruence.
        -- rewrite record_error_other in Hj by assumption. now apply Hcons.
      * intros j Hj. destruct (Nat.eq_dec i j) as [<-|Hne].
        -- right. exists e. now apply record_error_same.
        -- destruct (Hcov j Hj) as [[->|Hin] | (x & Hx)].
           ++ contradiction.
           ++ now left.
           ++ right. exists x. now rewrite record_error_other.
    + apply IH; auto.
      intros j Hj. destruct (Hcov j Hj) as [[->|Hin] | Hx]; auto.
      exfalso. apply nth_error_None in Ei. lia.
Qed.

Lemma nth_error_repeat_None n j x :
  nth_error (repeat (@None error) n) j <> Some (Some x).
Proof.
  revert j; induction n as [|n IH]; intros [|j]; simpl; try discriminate.
  apply IH.
Qed.

Lemma promise_any_all_rejected promises order :
  Permutation order (seq 0 (length promises)) ->
  forallb rejected promises = true ->
  promise_any promises order
  = Some (Throws (AggregateError (errors_of promises))).
Proof.
  intros Hperm Hall. unfold promise_any. apply any_run_all_rejected; auto.
  - apply repeat_length.
  - intros j x Hj. now apply nth_error_repeat_None in Hj.
  - intros j Hj. left. apply (Permutation_in _ (Permutation_sym Hperm)).
    apply in_seq. lia.
Qed.

Lemma promise_any_fulfilled promises order :
  Permutation order (seq 0 (length promises)) ->
  forallb rejected promises = false ->
  exists a, promise_any promises order = Some (Returns a).
Proof.
  intros Hperm Hsome. unfold promise_any. apply any_run_some_fulfilled.
  assert (Hex : exists o, In o promises /\ rejected o = false).
  { clear Hperm. induction promises as [|o promises IH]; [discriminate|].
    simpl in Hsome. destruct (rejected o) eqn:Eo.
    - destruct (IH Hsome) as (o' & Hin & Ho'). exists o'. split; [now right | assumption].
    - exists o. split; [now left | assumption]. }
  destruct Hex as (o & Hin & Ho).
  apply In_nth_error in Hin as [i Hi].
  destruct o as [a|e]; [|discriminate].
  exists i, a. split; [|assumption].
  apply (Permutation_in _ (Permutation_sym Hperm)). apply in_seq.
  assert (i < length promises) by (apply nth_error_Some; congruence). lia.
Qed.

End PromiseAnyFacts.

(** ** Facts about the gateway provider *)

Section GatewayFacts.
Context {C : Collaborators}.
Variable options : Options.

Lemma requests_length (CID : jsstring) :
  length (Gateway.requests options CID) = length (gatewaysUrls options).
Proof. unfold Gateway.requests. apply length_map. Qed.

Lemma gateway_get_settles (order : list nat) (CID : jsstring) :
  Permutation order (seq 0 (length (gatewaysUrls options))) ->
  if forallb rejected (Gateway.requests options CID)
  then Gateway.get options order CID
       = Some (Throws (AggregateError (errors_of (Gateway.requests options CID))))
  else exists v, Gateway.get options order CID = Some (Returns v).
Proof.
  intros Hperm. rewrite <- (requests_length CID) in Hperm.
  unfold Gateway.get.
  destruct (forallb rejected (Gateway.requests options CID)) eqn:E.
  - now rewrite promise_any_all_rejected.
  - destruct (promise_any_fulfilled _ Hperm E) as [a ->]. eauto.
Qed.

End GatewayFacts.



(** ** Facts about the node provider *)

Section NodeFacts.
Context {C : Collaborators}.

(** A handler that throws what it caught changes nothing. *)
Lemma tryCatch_rethrow (A : Type) (m : M A) (w : World) :
  tryCatch m (fun error => throw error) w = m w.
Proof. unfold tryCatch, throw. now destruct (m w) as [[a|e] w']. Qed.


Lemma unpin_unfold (cid : jsstring) (owner : Entity) (w : World) :
  Node.unpin cid owner w
  = match find (fun r => JsString.eqb (pin_cid r) cid) (ledger w) with
    | None => (Throws (Error "Content not pinned"), w)
    | Some p =>
        if JsString.eqb (pin_owner p) (walletId owner)
        then match client_pin_rm cid (daemon w) with
             | (Returns _, d) =>
                 (Returns true,
                  with_ledger (delete_first cid (ledger w)) (with_daemon d w))
             | (Throws e, d) => (Throws e, with_daemon d w)
             end
        else (Throws (Error "Unauthorized: only content owner can unpin"), w)
    end.
Proof.
  unfold Node.unpin. rewrite tryCatch_rethrow.
  unfold bind, findOne.
  destruct (find _ (ledger w)) as [p|]; [|reflexivity].
  destruct (JsString.eqb (pin_owner p) (walletId owner)); [|reflexivity].
  cbn [negb]. unfold client.
  destruct (client_pin_rm cid (daemon w)) as [[[]|e] d]; reflexivity.
Qed.

Lemma eqb_neq (a b : jsstring) : a <> b -> JsString.eqb a b = false.
Proof.
  intros H. destruct (JsString.eqb a b) eqn:E; [|reflexivity].
  now apply eqb_eq in E.
Qed.

End NodeFacts.



(** C4. A failed unpin leaves the ledger as it was.  The removal of the
    backing pin comes before the deletion: when it fails, unpin fails with
    its error and no record is deleted; after an Unauthorized failure the
    record is still found, with the owner it had. *)
Theorem unpin_failure_keeps_ledger
        {C : Collaborators} (cid : jsstring) (owner : Entity) (w : World) :
  (forall e w', Node.unpin cid owner w = (Throws e, w') -> ledger w' = ledger w)
  /\ (forall p e d,
         find (fun r => JsString.eqb (pin_cid r) cid) (ledger w) = Some p ->
         pin_owner p = walletId owner ->
         client_pin_rm cid (daemon w) = (Throws e, d) ->
         Node.unpin cid owner w = (Throws e, with_daemon d w)
         /\ ledger (snd (Node.unpin cid owner w)) = ledger w)
  /\ (forall p,
         find (fun r => JsString.eqb (pin_cid r) cid) (ledger w) = Some p ->
         pin_owner p <> walletId owner ->
         fst (Node.unpin cid owner w)
         = Throws (Error "Unauthorized: only content owner can unpin")
         /\ find (fun r => JsString.eqb (pin_cid r) cid)
                 (ledger (snd (Node.unpin cid owner w))) = Some p).
Proof.
  rewrite unpin_unfold. split; [|split].
  - intros e w'.
    destruct (find _ (ledger w)) as [p|]; [|now intros [= _ <-]].
    destruct (JsString.eqb (pin_owner p) (walletId owner)); [|now intros [= _ <-]].
    destruct (client_pin_rm cid (daemon w)) as [[[]|e'] d]; [discriminate|].
    now intros [= _ <-].
  - intros p e d Hp Ho Hrm. rewrite Hp, Ho, eqb_refl, Hrm. split; reflexivity.
  - intros p Hp Hne. rewrite Hp, eqb_neq by assumption. split; [reflexivity | exact Hp].
Qed.


Lemma unpin_failure_keeps_ledger_witness :
  @Node.unpin (Sample.collaborators false) (js "Qmhello") Sample.alice
              (Sample.pinned_world false)
  = (Throws Sample.unreachable, Sample.pinned_world false)
  /\ ledger (snd (@Node.unpin (Sample.collaborators false) (js "Qmhello") Sample.alice
                              (Sample.pinned_world false)))
     = ledger (Sample.pinned_world false).
Proof.
  split; [reflexivity|].
  apply (proj1 (@unpin_failure_keeps_ledger (Sample.collaborators false)
                  (js "Qmhello") Sample.alice (Sample.pinned_world false))
               Sample.unreachable).
  reflexivity.
Defined.

Section PinFacts.
Context {C : Collaborators}.

Lemma pin_unfold (content : jsstring) (owner : Entity) (broadcast : bool) (w : World) :
  Node.pin content owner broadcast w
  = match client_add content (daemon w) with
    | (Throws e, d) => (Throws e, with_daemon d w)
    | (Returns cid, d) =>
        match validate (pin_record cid owner w) with
        | Some e => (Throws e, with_daemon d w)
        | None =>
            let w2 := with_ledger (ledger w ++ [pin_record cid owner w])
                                  (with_daemon d w) in
            if broadcast then
              if has_eventEmitter then
                let w3 := with_emitted (emitted w ++ [write_event content owner]) w2 in
                match subscribers (write_event content owner) with
                | Some e => (Throws e, w3)
                | None => (Returns cid, w3)
                end
              else (Throws TypeError, w2)
            else (Returns cid, w2)
        end
    end.
Proof.
  unfold Node.pin. rewrite tryCatch_rethrow.
  unfold bind, client, date_now, create, emit, ret.
  destruct (client_add content (daemon w)) as [[cid|e] d]; [|reflexivity].
  cbn [clock with_daemon]. fold (pin_record cid owner w).
  destruct (validate (pin_record cid owner w)); [reflexivity|].
  destruct broadcast; [|reflexivity].
  destruct has_eventEmitter; [|reflexivity].
  cbn [emitted with_ledger with_daemon]. fold (write_event content owner).
  now destruct (subscribers (write_event content owner)).
Qed.

(** A pin that returns has appended one record of the cid it returns. *)
Lemma pin_appends (content : jsstring) (owner : Entity) (broadcast : bool)
      (w w' : World) (cid : jsstring) :
  Node.pin content owner broadcast w = (Returns cid, w') ->
  ledger w' = ledger w ++ [pin_record cid owner w].
Proof.
  rewrite pin_unfold.
  destruct (client_add content (daemon w)) as [[c|e] d]; [|discriminate].
  destruct (validate (pin_record c owner w)); [discriminate|].
  destruct broadcast.
  - destruct has_eventEmitter; [|discriminate].
    destruct (subscribers (write_event content owner)); [discriminate|].
    now intros [= <- <-].
  - now intros [= <- <-].
Qed.

Lemma records_of_app (c : jsstring) (l1 l2 : list PinRecord) :
  records_of c (l1 ++ l2) = records_of c l1 + records_of c l2.
Proof. unfold records_of. now rewrite filter_app, length_app. Qed.

(** Nothing in pin looks for a record of the same cid: a second pin of the
    same content adds a second record. *)
Lemma pin_twice (content : jsstring) (o1 o2 : Entity) (b1 b2 : bool)
      (w w1 w2 : World) (cid : jsstring) :
  Node.pin content o1 b1 w = (Returns cid, w1) ->
  Node.pin content o2 b2 w1 = (Returns cid, w2) ->
  records_of cid (ledger w2) = 2 + records_of cid (ledger w).
Proof.
  intros H1 H2. apply pin_appends in H1, H2. rewrite H2, H1.
  rewrite !records_of_app. unfold records_of at 2 3. simpl.
  rewrite eqb_refl. simpl. lia.
Qed.

(** A subscriber of ipfs:write that throws makes pin throw, after the
    content was added and the record written. *)
Lemma pin_fails_with_throwing_subscriber
      (content : jsstring) (owner : Entity) (w : World) (cid : jsstring)
      (d : Daemon) (e : error) :
  client_add content (daemon w) = (Returns cid, d) ->
  validate (pin_record cid owner w) = None ->
  has_eventEmitter = true ->
  subscribers (write_event content owner) = Some e ->
  fst (Node.pin content owner true w) = Throws e
  /\ ledger (snd (Node.pin content owner true w))
     = ledger w ++ [pin_record cid owner w].
Proof.
  intros Ha Hv He Hs. rewrite pin_unfold, Ha, Hv, He, Hs. split; reflexivity.
Qed.

Lemma handler_unfold (content : jsstring) (owner : Entity) (w : World) :
  Node.handleIpfsBroadcastWrite content owner w
  = (match fst (Node.pin content owner false w) with
     | Returns _ => Returns None
     | Throws _ => Returns (Some false)
     end, snd (Node.pin content owner false w)).
Proof.
  unfold Node.handleIpfsBroadcastWrite, tryCatch, bind, ret.
  now destruct (Node.pin content owner false w) as [[cid|e] w'].
Qed.

End PinFacts.

(** C5, on the code: pinning the same content twice leaves two records of
    the same CID in the ledger; the second pin is neither rejected nor
    without effect. *)
Theorem repin_writes_second_record :
  let C := Sample.collaborators true in
  let w0 := Sample.empty_world true in
  let w1 := snd (@Node.pin C (js "hello") Sample.alice true w0) in
  let w2 := snd (@Node.pin C (js "hello") Sample.alice true w1) in
  fst (@Node.pin C (js "hello") Sample.alice true w0) = Returns (js "Qmhello")
  /\ fst (@Node.pin C (js "hello") Sample.alice true w1) = Returns (js "Qmhello")
  /\ records_of (js "Qmhello") (ledger w1) = 1
  /\ records_of (js "Qmhello") (ledger w2) = 2.
Proof. repeat split. Qed.

(** C6 as stated fails: the event a pin emits has the topic ipfs:write, the
    listener is subscribed to ipfs:broadcast:write, so an emitter handed the
    event, on the emitting instance or on a peer, does not call the listener:
    the world is as it was, while the listener, had it run, would have
    written a record. *)
Lemma pin_event_not_received :
  let C := Sample.collaborators true in
  let peer := Sample.empty_world true in
  let w1 := snd (@Node.pin C (js "hello") Sample.alice true (Sample.empty_world true)) in
  emitted w1 = [write_event (js "hello") Sample.alice]
  /\ @Node.deliver C (write_event (js "hello") Sample.alice) w1 = (Returns None, w1)
  /\ @Node.deliver C (write_event (js "hello") Sample.alice) peer = (Returns None, peer)
  /\ length (ledger peer) = 0
  /\ length (ledger (snd (@Node.handleIpfsBroadcastWrite C (js "hello") Sample.alice peer))) = 1.
Proof. repeat split. Qed.

(** C6, amended. A pin with broadcast that returns has emitted one ipfs:write
    event with the content and the owner, after the injection and the ledger
    write of the pin without broadcast.  The listener is subscribed to another
    topic, ipfs:broadcast:write, and an ipfs:write event delivered to the
    instance changes nothing.  Called with a payload, the listener does what
    pin does with broadcasting disabled, which emits nothing, and it never
    throws: it returns undefined after a pin and false after a failure. *)
Theorem broadcast_and_listener
        {C : Collaborators} (content : jsstring) (owner : Entity) (w : World) :
  (forall cid w',
      Node.pin content owner true w = (Returns cid, w') ->
      emitted w' = emitted w ++ [write_event content owner]
      /\ Node.pin content owner false w = (Returns cid, with_emitted (emitted w) w'))
  /\ Node.broadcast_write_topic <> Node.write_topic
  /\ Node.deliver (write_event content owner) w = (Returns None, w)
  /\ Node.handleIpfsBroadcastWrite content owner w
     = (match fst (Node.pin content owner false w) with
        | Returns _ => Returns None
        | Throws _ => Returns (Some false)
        end, snd (Node.pin content owner false w))
  /\ emitted (snd (Node.pin content owner false w)) = emitted w.
Proof.
  split; [|split; [|split; [|split]]].
  - intros cid w'. rewrite !pin_unfold.
    destruct (client_add content (daemon w)) as [[c|e] d]; [|discriminate].
    destruct (validate (pin_record c owner w)); [discriminate|].
    destruct has_eventEmitter; [|discriminate].
    destruct (subscribers (write_event content owner)); [discriminate|].
    intros [= <- <-]. split; reflexivity.
  - discriminate.
  - reflexivity.
  - apply handler_unfold.
  - rewrite pin_unfold.
    destruct (client_add content (daemon w)) as [[c|e] d]; [|reflexivity].
    now destruct (validate (pin_record c owner w)).
Qed.

Lemma broadcast_and_listener_witness :
  let C := Sample.collaborators true in
  emitted (snd (@Node.pin C (js "hello") Sample.alice true (Sample.empty_world true)))
  = [write_event (js "hello") Sample.alice]
  /\ fst (@Node.handleIpfsBroadcastWrite C (js "hello") Sample.alice (Sample.empty_world true))
     = Returns None
  /\ fst (@Node.handleIpfsBroadcastWrite (Sample.collaborators false) (js "hello")
            Sample.alice (Sample.empty_world false))
     = Returns (Some false).
Proof.
  intros C. split; [|split].
  - apply (proj1 (@broadcast_and_listener C (js "hello") Sample.alice
                    (Sample.empty_world true))
                 (js "Qmhello")).
    reflexivity.
  - destruct (@broadcast_and_listener C (js "hello") Sample.alice
                (Sample.empty_world true)) as (_ & _ & _ & H & _).
    rewrite H. reflexivity.
  - destruct (@broadcast_and_listener (Sample.collaborators false) (js "hello")
                Sample.alice (Sample.empty_world false)) as (_ & _ & _ & H & _).
    rewrite H. reflexivity.
Defined.

(** ** Facts about the facade *)

Section FacadeFacts.
Context {C : Collaborators}.

Lemma jsize_data_object (v : jsval) : jsize (data_object v) = S (jsize v).
Proof. unfold data_object. simpl. lia. Qed.

(** An object around a value is not that value. *)
Lemma data_object_differs (v : jsval) : data_object v <> v.
Proof.
  intros H. apply (f_equal jsize) in H. rewrite jsize_data_object in H. lia.
Qed.

(** What the node provider returns is an object with the field data. *)
Lemma node_get_wraps (cid : jsstring) (w w' : World) (v : jsval) :
  Node.get cid w = (Returns v, w') -> exists d, v = data_object d.
Proof.
  unfold Node.get. rewrite tryCatch_rethrow. unfold bind, client, ret, throw.
  destruct (nonempty cid); [|discriminate].
  destruct (client_cat cid (daemon w)) as [[content|e] d]; [|discriminate].
  destruct (JSON_parse content) as [x|]; intros [= <- _]; eauto.
Qed.

End FacadeFacts.

(** C8, on the code: the node provider returns the object { data: content },
    the gateway provider the bare content, and the facade hands on whichever
    it got; the controller's read of .data gives the content in the first
    case and undefined in the second. *)
Theorem facade_get_depends_on_source :
  let up := Sample.collaborators true in
  let down := Sample.collaborators false in
  fst (@IpfsService.get up Sample.options [0; 1] (js "Qmhello") (Sample.pinned_world true))
  = Some (Returns (data_object (JString (js "hello"))))
  /\ fst (@IpfsService.get down Sample.options [0; 1] (js "Qmhello") (Sample.pinned_world false))
     = Some (Returns (JString (js "hello")))
  /\ data_object (JString (js "hello")) <> JString (js "hello")
  /\ fst (@IpfsController.readContent up Sample.options [0; 1] (js "Qmhello")
            (Sample.pinned_world true))
     = Some (Returns (JString (js "hello")))
  /\ fst (@IpfsController.readContent down Sample.options [0; 1] (js "Qmhello")
            (Sample.pinned_world false))
     = Some (Returns JUndefined).
Proof. repeat split. discriminate. Qed.

(** C9. get asks the node first: its result is returned when it returns, and
    the gateway is asked only when it throws; getFile asks the gateway first:
    its result is returned when it resolves, the node untouched, and the node
    is asked only when it rejects.  Either call fails only when both
    providers fail, with the error of the one asked last. *)
Theorem facade_read_preference
        {C : Collaborators} (options : Options) (order : list nat)
        (x : jsstring) (w : World) :
  (forall v w', Node.get x w = (Returns v, w') ->
                IpfsService.get options order x w = (Some (Returns v), w'))
  /\ (forall e w', Node.get x w = (Throws e, w') ->
                   IpfsService.get options order x w = (Gateway.get options order x, w'))
  /\ (forall e w', IpfsService.get options order x w = (Some (Throws e), w') ->
                   (exists e1, Node.get x w = (Throws e1, w'))
                   /\ Gateway.get options order x = Some (Throws e))
  /\ (forall v, Gateway.getFile options order x = Some (Returns v) ->
                IpfsService.getFile options order x w = (Some (Returns v), w))
  /\ (forall e, Gateway.getFile options order x = Some (Throws e) ->
                IpfsService.getFile options order x w
                = (Some (fst (Node.getFile x w)), snd (Node.getFile x w)))
  /\ (forall e w', IpfsService.getFile options order x w = (Some (Throws e), w') ->
                   (exists e1, Gateway.getFile options order x = Some (Throws e1))
                   /\ Node.getFile x w = (Throws e, w')).
Proof.
  unfold IpfsService.get, IpfsService.getFile.
  split; [|split; [|split; [|split; [|split]]]].
  - now intros v w' ->.
  - now intros e w' ->.
  - intros e w'. destruct (Node.get x w) as [[v|e1] w1]; [discriminate|].
    intros [= -> <-]. eauto.
  - now intros v ->.
  - intros e ->. now destruct (Node.getFile x w).
  - intros e w'. destruct (Gateway.getFile options order x) as [[v|e1]|];
      try discriminate.
    destruct (Node.getFile x w) as [o w1]. intros [= -> <-]. eauto.
Qed.

Lemma facade_read_preference_witness :
  let up := Sample.collaborators true in
  let down := Sample.collaborators false in
  @IpfsService.get up Sample.options [0; 1] (js "Qmhello") (Sample.pinned_world true)
  = (Some (Returns (data_object (JString (js "hello")))), Sample.pinned_world true)
  /\ @IpfsService.get down Sample.options [0; 1] (js "Qmhello") (Sample.pinned_world false)
     = (@Gateway.get down Sample.options [0; 1] (js "Qmhello"), Sample.pinned_world false)
  /\ @IpfsService.getFile up Sample.options [0; 1] (js "Qmhello") (Sample.pinned_world true)
     = (Some (Returns {| buffer := js "hello"; type := None |}), Sample.pinned_world true)
  /\ @IpfsService.getFile up Sample.options [0; 1] (js "QmOther") (Sample.pinned_world true)
     = (Some (Throws (ExternalError 404)), Sample.pinned_world true).
Proof.
  intros up down. split; [|split; [|split]].
  - apply (@facade_read_preference up). reflexivity.
  - apply (proj1 (proj2 (@facade_read_preference down Sample.options [0; 1]
                           (js "Qmhello") (Sample.pinned_world false)))
                 Sample.unreachable).
    reflexivity.
  - apply (@facade_read_preference up). reflexivity.
  - rewrite (proj1 (proj2 (proj2 (proj2 (proj2
               (@facade_read_preference up Sample.options [0; 1]
                  (js "QmOther") (Sample.pinned_world true))))))
               (AggregateError [ExternalError 504; ExternalError 504]) eq_refl).
    reflexivity.
Defined.

(** ** More about the matcher *)

Section MatcherMore.
Variable R : Type.
Implicit Types (k : jsstring -> option R) (K : jsstring -> captures -> option R).

(** The repetition hands a suffix to its continuation, after a run of the
    class. *)
Lemma star_run cs s k r :
  star cs s k = Some r ->
  exists a b, s = a ++ b
              /\ Forall (fun c => in_charset cs c = true) a
              /\ k b = Some r.
Proof.
  induction s as [|x s IH]; simpl; intros H.
  - exists [], []. auto.
  - destruct (in_charset cs x) eqn:Hx.
    + destruct (star cs s k) as [r'|].
      * destruct (IH H) as (a & b & -> & Ha & Hb).
        exists (x :: a), b. auto.
      * exists [], (x :: s). auto.
    + exists [], (x :: s). auto.
Qed.

(** A group around a repetition captures the non-empty run it read. *)
Lemma run_group_plus n cs s caps K v :
  run (Grp n (Plus cs)) s caps K = Some v ->
  exists a b, s = a ++ b /\ a <> []
              /\ Forall (fun c => in_charset cs c = true) a
              /\ K b (set_capture n a caps) = Some v.
Proof.
  rewrite run_Grp. simpl.
  destruct s as [|x s]; [discriminate|].
  destruct (in_charset cs x) eqn:Hx; [|discriminate].
  intros H. apply star_run in H as (a & b & -> & Ha & H).
  exists (x :: a), b. repeat split; auto; [discriminate|].
  change (x :: a ++ b) with ((x :: a) ++ b) in H.
  now rewrite consumed_app in H.
Qed.

(** The continuation is called on a suffix of the input. *)
Lemma run_suffix (r : regex) :
  forall s caps K v,
    run r s caps K = Some v ->
    exists pre s' caps', s = pre ++ s' /\ K s' caps' = Some v.
Proof.
  induction r as [p|cs|cs|r1 IH1 r2 IH2|r1 IH1|n r1 IH1]; intros s caps K v; simpl.
  - destruct (startsWith s p) eqn:E; [|discriminate].
    destruct (startsWith_prefix _ _ E) as [t ->].
    rewrite skipn_length_app. intros H. now exists p, t, caps.
  - destruct s as [|c s]; [discriminate|].
    destruct (in_charset cs c); [|discriminate].
    intros H. now exists [c], s, caps.
  - destruct s as [|c s]; [discriminate|].
    destruct (in_charset cs c); [|discriminate].
    intros H. apply star_result in H as (a & b & -> & H).
    now exists (c :: a), b, caps.
  - intros H. apply IH1 in H as (p1 & s1 & c1 & -> & H).
    apply IH2 in H as (p2 & s2 & c2 & -> & H).
    exists (p1 ++ p2), s2, c2. now rewrite <- app_assoc.
  - destruct (run r1 s caps K) eqn:E.
    + intros [= <-]. now apply IH1 in E.
    + intros H. now exists [], s, caps.
  - intros H. apply IH1 in H as (p1 & s1 & c1 & -> & H). eauto.
Qed.

(** A pattern without groups leaves the captures as they are. *)
Lemma run_groupless (r : regex) :
  groupless r = true ->
  forall s caps K v,
    run r s caps K = Some v -> exists s', K s' caps = Some v.
Proof.
  induction r as [p|cs|cs|r1 IH1 r2 IH2|r1 IH1|n r1 IH1]; simpl; intros G s caps K v.
  - destruct (startsWith s p); [eauto | discriminate].
  - destruct s as [|c s]; [discriminate|].
    destruct (in_charset cs c); [eauto | discriminate].
  - destruct s as [|c s]; [discriminate|].
    destruct (in_charset cs c); [|discriminate].
    intros H. apply star_result in H as (a & b & _ & H). eauto.
  - apply andb_true_iff in G as [G1 G2].
    intros H. apply (IH1 G1) in H as (s1 & H). now apply (IH2 G2) in H.
  - destruct (run r1 s caps K) eqn:E.
    + intros [= <-]. now apply (IH1 G) in E.
    + eauto.
  - discriminate.
Qed.

Lemma star_ext cs s k1 k2 :
  (forall x, k1 x = k2 x) -> star cs s k1 = star cs s k2.
Proof.
  intros H. induction s as [|x s IH]; simpl; [apply H|].
  now rewrite IH, H.
Qed.

(** [run] depends on its continuation through its values only. *)
Lemma run_ext (r : regex) :
  forall s caps K1 K2,
    (forall x c, K1 x c = K2 x c) -> run r s caps K1 = run r s caps K2.
Proof.
  induction r as [p|cs|cs|r1 IH1 r2 IH2|r1 IH1|n r1 IH1]; intros s caps K1 K2 H; simpl.
  - now rewrite H.
  - destruct s as [|c s]; [reflexivity|]. now rewrite H.
  - destruct s as [|c s]; [reflexivity|].
    destruct (in_charset cs c); [|reflexivity].
    apply star_ext. intros x. apply H.
  - apply IH1. intros x c. now apply IH2.
  - now rewrite (IH1 s caps K1 K2 H), H.
  - apply IH1. intros x c. apply H.
Qed.

End MatcherMore.

Section MatcherMap.
Variables A B : Type.
Variable h : A -> B.

Lemma star_map cs s (k : jsstring -> option A) :
  star cs s (fun x => option_map h (k x)) = option_map h (star cs s k).
Proof.
  induction s as [|x s IH]; simpl; [reflexivity|].
  destruct (in_charset cs x); [|reflexivity].
  rewrite IH. now destruct (star cs s k).
Qed.

(** A function applied to the results of the continuation is applied to
    the result of the match. *)
Lemma run_map (r : regex) :
  forall s caps (K : jsstring -> captures -> option A),
    run r s caps (fun x c => option_map h (K x c)) = option_map h (run r s caps K).
Proof.
  induction r as [p|cs|cs|r1 IH1 r2 IH2|r1 IH1|n r1 IH1]; intros s caps K; simpl.
  - now destruct (startsWith s p).
  - destruct s as [|c s]; [reflexivity|]. now destruct (in_charset cs c).
  - destruct s as [|c s]; [reflexivity|].
    destruct (in_charset cs c); [|reflexivity]. apply star_map.
  - rewrite <- IH1. apply run_ext. intros x c. apply IH2.
  - rewrite IH1. now destruct (run r1 s caps K).
  - apply (IH1 s caps (fun x c => K x (set_capture n (consumed s x) c))).
Qed.

End MatcherMap.

(** ** What extractCID returns and when it throws *)

Section ExtractMore.

Let notq := CNot "?"%char.
Let group1 : regex :=
  Grp 1 (Seq (Lit (js "https://")) (Seq (Plus notq) (Lit (js "/ipfs/")))).
Let group2 : regex := Grp 2 (Plus notq).
Let dweb_tail : regex :=
  Seq (Cls CDot)
      (Seq (Lit (js "ipfs"))
           (Seq (Cls CDot)
                (Seq (Lit (js "dweb")) (Seq (Cls CDot) (Lit (js "link/")))))).

Lemma in_class_lacking (a : jsstring) :
  Forall (fun c => in_charset notq c = true) a -> ~ In "?"%char a.
Proof.
  intros H Hin. rewrite Forall_forall in H. specialize (H _ Hin).
  discriminate H.
Qed.

Lemma in_class_has_cid_char (a : jsstring) :
  a <> [] -> Forall (fun c => in_charset notq c = true) a -> has_cid_char a = true.
Proof.
  intros Ha H. destruct a as [|x a]; [contradiction|].
  inversion H as [|? ? Hx _]; subst. unfold has_cid_char. cbn [existsb].
  fold notq. now rewrite Hx.
Qed.

Lemma has_cid_char_app (a b : jsstring) :
  has_cid_char (a ++ b) = has_cid_char a || has_cid_char b.
Proof. unfold has_cid_char. apply existsb_app. Qed.

(** The second group of the first pattern: a non-empty part of the input
    without a question mark. *)
Lemma regex_group2_run (s : jsstring) (res : jsstring * captures) :
  run Base.regex s no_captures accept = Some res ->
  exists pre c post,
    s = pre ++ c ++ post /\ snd res 2 = Some c /\ c <> []
    /\ Forall (fun x => in_charset notq x = true) c.
Proof.
  change Base.regex with (Seq (Opt group1) group2).
  rewrite run_Seq. intros H.
  apply run_suffix in H as (pre & s1 & c1 & -> & H).
  apply run_group_plus in H as (a & b & -> & Ha & HF & H).
  injection H as <-. exists pre, a, b. auto.
Qed.

Lemma dweb_group1_run (s : jsstring) (res : jsstring * captures) :
  run Base.dweb s no_captures accept = Some res ->
  exists c, snd res 1 = Some c /\ c <> []
            /\ Forall (fun x => in_charset notq x = true) c.
Proof.
  change Base.dweb
    with (Seq (Lit (js "https://")) (Seq (Grp 1 (Plus notq)) dweb_tail)).
  rewrite run_Seq, run_Lit.
  destruct (startsWith s (js "https://")); [|discriminate].
  rewrite run_Seq. intros H.
  apply run_group_plus in H as (a & b & _ & Ha & HF & H).
  apply run_groupless in H as (s' & H); [|reflexivity].
  injection H as <-. exists a. auto.
Qed.

(** A match that exec reports was found at some suffix of the input. *)
Lemma exec_found (r : regex) (n : nat) (s : jsstring) (arr : list (option jsstring)) :
  exec r n s = Some arr ->
  exists pre s' res,
    s = pre ++ s' /\ run r s' no_captures accept = Some res
    /\ arr = match_array n s' res.
Proof.
  induction s as [|x s IH]; rewrite exec_unfold.
  - destruct (run r [] no_captures accept) as [res|] eqn:E; [|discriminate].
    intros [= <-]. now exists [], [], res.
  - destruct (run r (x :: s) no_captures accept) as [res|] eqn:E.
    + intros [= <-]. now exists [], (x :: s), res.
    + intros H. destruct (IH H) as (pre & s' & res & -> & Hrun & ->).
      now exists (x :: pre), s', res.
Qed.

(** Without a character other than a question mark there is no match. *)
Lemma regex_needs_cid_char (s : jsstring) :
  has_cid_char s = false -> exec Base.regex 2 s = None.
Proof.
  intros H. destruct (exec Base.regex 2 s) as [arr|] eqn:E; [exfalso | reflexivity].
  apply exec_found in E as (pre & s' & res & -> & Hrun & _).
  apply regex_group2_run in Hrun as (p & c & q & -> & _ & Hc & HF).
  rewrite !has_cid_char_app, (in_class_has_cid_char Hc HF) in H.
  destruct (has_cid_char pre), (has_cid_char p); discriminate H.
Qed.

Lemma extractCID_ok (u : jsstring) :
  has_cid_char (scheme_stripped u) = true ->
  exists v, Base.extractCID (VStr u) = Returns v.
Proof.
  intros H.
  assert (Hu : u <> []) by (intros ->; discriminate H).
  destruct (regex_exec_some _ H) as (w & g1 & c & E).
  unfold Base.extractCID. destruct u as [|x u]; [contradiction|].
  cbn [truthy]. fold (scheme_stripped (x :: u)). rewrite E.
  cbn [lodash_nth nth_error].
  destruct (endsWith c (js "ipfs.dweb.link/")); eauto.
Qed.

End ExtractMore.

Lemma extractCID_result_facts (u c : jsstring) :
  Base.extractCID (VStr u) = Returns (VStr c) ->
  c <> [] /\ ~ In "?"%char c.
Proof.
  unfold Base.extractCID. destruct u as [|x u]; [discriminate|]. cbn [truthy].
  destruct (exec Base.regex 2 _) as [arr|] eqn:E; [|discriminate].
  apply exec_found in E as (pre & s' & res & _ & Hrun & ->).
  apply regex_group2_run in Hrun as (p & c2 & q & _ & Hc2 & Hne & HF).
  unfold match_array, lodash_nth at 1. cbn [nth_error seq map]. rewrite Hc2.
  destruct (endsWith c2 (js "ipfs.dweb.link/")).
  - destruct (exec Base.dweb 1 c2) as [arr|] eqn:E; [|discriminate].
    apply exec_found in E as (pre' & s'' & res' & _ & Hrun & ->).
    apply dweb_group1_run in Hrun as (c1 & Hc1 & Hne1 & HF1).
    unfold match_array, lodash_nth. cbn [nth_error seq map]. rewrite Hc1.
    intros [= <-]. split; [assumption | now apply in_class_lacking].
  - intros [= <-]. split; [assumption | now apply in_class_lacking].
Qed.

Lemma extractCID_result_nonempty (u c : jsstring) :
  Base.extractCID (VStr u) = Returns (VStr c) -> c <> [].
Proof. intros H. now apply extractCID_result_facts in H. Qed.

(** X1. A string that extractCID returns is never empty and never holds a
    question mark. *)
Theorem extractCID_result_shape (u c : jsstring) :
  Base.extractCID (VStr u) = Returns (VStr c) ->
  c <> [] /\ contains c "?"%char = false.
Proof.
  intros H. apply extractCID_result_facts in H as [Hne Hq].
  split; [assumption | now apply contains_false].
Qed.

Lemma extractCID_result_shape_witness :
  Base.extractCID (VStr (js "https://gw/ipfs/Qm1?a=?b")) = Returns (VStr (js "Qm1"))
  /\ js "Qm1" <> [] /\ contains (js "Qm1") "?"%char = false.
Proof.
  split; [reflexivity|].
  apply (@extractCID_result_shape (js "https://gw/ipfs/Qm1?a=?b")). reflexivity.
Defined.

Lemma extractCID_no_cid_char (u : jsstring) :
  u <> [] -> has_cid_char (scheme_stripped u) = false ->
  Base.extractCID (VStr u) = Throws TypeError.
Proof.
  intros Hu H. destruct u as [|x u]; [contradiction|].
  unfold Base.extractCID. cbn [truthy]. fold (scheme_stripped (x :: u)).
  now rewrite (regex_needs_cid_char _ H).
Qed.

(** X2. extractCID throws exactly on the non-empty inputs that, once the
    first ipfs:// is taken out, hold nothing but question marks; what it
    throws is a TypeError. *)
Theorem extractCID_throws_iff (u : jsstring) :
  ((exists e, Base.extractCID (VStr u) = Throws e)
   <-> u <> [] /\ has_cid_char (scheme_stripped u) = false)
  /\ (forall e, Base.extractCID (VStr u) = Throws e -> e = TypeError).
Proof.
  destruct (has_cid_char (scheme_stripped u)) eqn:H.
  - destruct (extractCID_ok _ H) as [v Hv]. rewrite Hv. split.
    + split; [intros [e He]; discriminate | intros [_ ?]; discriminate].
    + discriminate.
  - destruct u as [|x u].
    + split; [|discriminate].
      split; [intros [e He]; discriminate | intros [? _]; contradiction].
    + assert (E : Base.extractCID (VStr (x :: u)) = Throws TypeError)
        by (apply extractCID_no_cid_char; [discriminate | assumption]).
      rewrite E. split.
      * split; [intros _; split; [discriminate | reflexivity] | eauto].
      * now intros e [= <-].
Qed.

Lemma extractCID_throws_iff_witness :
  exists e, Base.extractCID (VStr (js "ipfs://??")) = Throws e.
Proof.
  apply (proj1 (extractCID_throws_iff (js "ipfs://??"))).
  split; [discriminate | reflexivity].
Defined.

(** ** The query string *)

Section QueryString.

Lemma startsWith_mono (X t p : jsstring) :
  startsWith X p = true -> startsWith (X ++ t) p = true.
Proof.
  intros H. destruct (startsWith_prefix _ _ H) as [r ->].
  rewrite <- app_assoc. apply startsWith_app.
Qed.

(** A pattern without a question mark is found before one or not at all. *)
Lemma startsWith_before_question (X t p : jsstring) :
  contains p "?"%char = false ->
  startsWith (X ++ "?"%char :: t) p = startsWith X p.
Proof.
  intros Hp. apply contains_false in Hp.
  destruct (startsWith X p) eqn:E.
  - now apply startsWith_mono.
  - destruct (startsWith (X ++ "?"%char :: t) p) eqn:E'; [|reflexivity].
    apply startsWith_split in E' as [E' | (d & [= <-] & Hd)]; [congruence | contradiction].
Qed.

Lemma skipn_prefix_app (X t p : jsstring) :
  startsWith X p = true ->
  skipn (length p) (X ++ t) = skipn (length p) X ++ t.
Proof.
  intros H. destruct (startsWith_prefix _ _ H) as [r ->].
  now rewrite <- app_assoc, !skipn_length_app.
Qed.

Lemma consumed_common_suffix (X s' t : jsstring) :
  consumed (X ++ t) (s' ++ t) = consumed X s'.
Proof.
  unfold consumed. rewrite !length_app.
  replace (length X + length t - (length s' + length t))
    with (length X - length s') by lia.
  rewrite firstn_app.
  replace (length X - length s' - length X) with 0 by lia.
  simpl. apply app_nil_r.
Qed.

Variable R : Type.

Lemma star_before_question cs X t (k : jsstring -> option R) :
  in_charset cs "?"%char = false ->
  star cs (X ++ "?"%char :: t) k = star cs X (fun s' => k (s' ++ "?"%char :: t)).
Proof.
  intros Hq. induction X as [|x X IH]; simpl.
  - now rewrite Hq.
  - now rewrite IH.
Qed.

(** Matching before a question mark is matching the part before it. *)
Lemma run_before_question (r : regex) :
  stops_at_question r = true ->
  forall X t caps (K : jsstring -> captures -> option R),
    run r (X ++ "?"%char :: t) caps K
    = run r X caps (fun s' caps' => K (s' ++ "?"%char :: t) caps').
Proof.
  induction r as [p|cs|cs|r1 IH1 r2 IH2|r1 IH1|n r1 IH1]; simpl; intros S X t caps K.
  - apply negb_true_iff in S. rewrite startsWith_before_question by assumption.
    destruct (startsWith X p) eqn:E; [|reflexivity].
    now rewrite skipn_prefix_app.
  - apply negb_true_iff in S. destruct X as [|x X]; simpl.
    + now rewrite S.
    + reflexivity.
  - apply negb_true_iff in S. destruct X as [|x X]; simpl.
    + now rewrite S.
    + destruct (in_charset cs x); [|reflexivity].
      now apply star_before_question.
  - apply andb_true_iff in S as [S1 S2]. rewrite (IH1 S1).
    apply run_ext. intros x c. apply (IH2 S2).
  - now rewrite (IH1 S).
  - rewrite (IH1 S). apply run_ext. intros x c.
    now rewrite consumed_common_suffix.
Qed.

End QueryString.

Section QueryExec.

Lemma run_accept_before_question (r : regex) (X t : jsstring) :
  stops_at_question r = true ->
  run r (X ++ "?"%char :: t) no_captures accept
  = option_map (fun res => (fst res ++ "?"%char :: t, snd res))
               (run r X no_captures accept).
Proof.
  intros S. rewrite run_before_question by assumption.
  etransitivity;
    [| exact (run_map (fun res : jsstring * captures =>
                         (fst res ++ "?"%char :: t, snd res)) r X no_captures accept)].
  apply run_ext. intros x c. reflexivity.
Qed.

(** A match found before the question mark is the match of exec. *)
Lemma exec_before_question (r : regex) (n : nat) (X t : jsstring) :
  stops_at_question r = true ->
  exec r n X <> None ->
  exec r n (X ++ "?"%char :: t) = exec r n X.
Proof.
  intros S. induction X as [|x X IH]; intros H.
  - rewrite exec_unfold in H. rewrite (exec_unfold r n ([] ++ _)), (exec_unfold r n []).
    rewrite run_accept_before_question by assumption.
    destruct (run r [] no_captures accept) as [[rest caps]|]; [|contradiction].
    simpl option_map. unfold match_array. cbn [fst snd].
    now rewrite (consumed_common_suffix [] rest).
  - rewrite exec_unfold in H.
    rewrite (exec_unfold r n ((x :: X) ++ _)), (exec_unfold r n (x :: X)).
    rewrite run_accept_before_question by assumption.
    destruct (run r (x :: X) no_captures accept) as [[rest caps]|].
    + simpl option_map. unfold match_array. cbn [fst snd].
      now rewrite (consumed_common_suffix (x :: X) rest).
    + simpl. now apply IH.
Qed.

(** Taking the scheme out before a question mark: the part before it is
    what it is without the rest. *)
Lemma replace_first_before_question (pat A q : jsstring) :
  contains pat "?"%char = false ->
  exists q', replace_first pat (A ++ "?"%char :: q)
             = replace_first pat A ++ "?"%char :: q'.
Proof.
  intros Hp. induction A as [|x A IH].
  - destruct pat as [|y pat].
    + now exists q.
    + exists (replace_first (y :: pat) q).
      apply contains_false in Hp.
      assert (Hy : Ascii.eqb y "?"%char = false)
        by (apply Ascii.eqb_neq; intros ->; apply Hp; now left).
      cbn [app replace_first startsWith]. now rewrite Hy.
  - pose proof (startsWith_before_question (x :: A) q pat Hp) as E.
    destruct (startsWith (x :: A) pat) eqn:E'.
    + exists q. destruct pat as [|y pat]; [reflexivity|].
      cbn [replace_first app]. change (x :: A ++ "?"%char :: q) with ((x :: A) ++ "?"%char :: q).
      rewrite E, E'. now apply skipn_prefix_app.
    + destruct IH as [q' IH]. exists q'.
      destruct pat as [|y pat]; [discriminate|].
      cbn [replace_first app]. change (x :: A ++ "?"%char :: q) with ((x :: A) ++ "?"%char :: q).
      rewrite E, E'. simpl. now rewrite IH.
Qed.

End QueryExec.

(** X3. A query string does not change what extractCID returns: when the
    input holds, apart from its first ipfs://, a character other than a
    question mark, a question mark and anything at all may follow it. *)
Theorem extractCID_ignores_query (u q : jsstring) :
  has_cid_char (scheme_stripped u) = true ->
  Base.extractCID (VStr (u ++ "?"%char :: q)) = Base.extractCID (VStr u).
Proof.
  intros H.
  assert (Hu : u <> []) by (intros ->; discriminate H).
  destruct (replace_first_before_question (js "ipfs://") u q eq_refl) as [q' Hq'].
  unfold Base.extractCID. destruct u as [|x u]; [contradiction|].
  cbn [truthy app]. change (x :: u ++ "?"%char :: q) with ((x :: u) ++ "?"%char :: q).
  rewrite Hq'. fold (scheme_stripped (x :: u)).
  rewrite exec_before_question; [reflexivity | reflexivity |].
  destruct (regex_exec_some _ H) as (w & g1 & c & ->). discriminate.
Qed.

Lemma extractCID_ignores_query_witness :
  Base.extractCID (VStr (js "https://gw/ipfs/Qm1?x=ipfs://y?z"))
  = Returns (VStr (js "Qm1")).
Proof.
  exact (eq_trans
           (extractCID_ignores_query (js "https://gw/ipfs/Qm1") (js "x=ipfs://y?z") eq_refl)
           eq_refl).
Defined.

(** ** encodeURIComponent and getImageUrl *)

Section Encoding.

Lemma encode_unit_alphabet (c : ascii) :
  forallb escaped_char (encode_unit c) = true.
Proof. destruct c as [[] [] [] [] [] [] [] []]; reflexivity. Qed.

Lemma encode_unit_nonempty (c : ascii) : encode_unit c <> [].
Proof.
  unfold encode_unit. destruct (is_unreserved c); [discriminate|].
  destruct (nat_of_ascii c <? 128); discriminate.
Qed.

Lemma encode_alphabet (s : jsstring) :
  forallb escaped_char (encodeURIComponent s) = true.
Proof.
  induction s as [|c s IH]; [reflexivity|].
  unfold encodeURIComponent in *. simpl.
  now rewrite forallb_app, encode_unit_alphabet, IH.
Qed.

Lemma escaped_lacking (s : jsstring) (d : ascii) :
  escaped_char d = false ->
  forallb escaped_char s = true -> contains s d = false.
Proof.
  intros Hd Hs. apply contains_false. intros Hin.
  rewrite forallb_forall in Hs. specialize (Hs _ Hin). congruence.
Qed.

Lemma encode_nonempty (s : jsstring) :
  nonempty (encodeURIComponent s) = nonempty s.
Proof.
  destruct s as [|c s]; [reflexivity|].
  unfold encodeURIComponent. simpl.
  pose proof (encode_unit_nonempty c) as H.
  now destruct (encode_unit c).
Qed.

Lemma encode_unreserved (s : jsstring) :
  forallb is_unreserved s = true -> encodeURIComponent s = s.
Proof.
  induction s as [|c s IH]; [reflexivity|].
  cbn [forallb]. intros H. apply andb_true_iff in H as [Hc Hs].
  unfold encodeURIComponent in *. cbn [flat_map]. unfold encode_unit at 1.
  rewrite Hc. simpl. now rewrite IH.
Qed.

Lemma encode_is_token (cid : jsstring) :
  cid <> [] -> cid_token (encodeURIComponent cid) = true.
Proof.
  intros H. unfold cid_token.
  rewrite encode_nonempty, (proj2 (nonempty_true cid) H).
  rewrite !(escaped_lacking (encodeURIComponent cid)); auto using encode_alphabet.
Qed.

End Encoding.

(** X4. Whatever the string, encodeURIComponent gives a string of unreserved
    characters and percent signs only; no slash, question mark, colon,
    ampersand, number sign or space is left in it, and it is empty only for
    the empty string. *)
Theorem encodeURIComponent_alphabet (s : jsstring) :
  forallb escaped_char (encodeURIComponent s) = true
  /\ forallb (fun d => negb (contains (encodeURIComponent s) d)) (js "/?:&#= ") = true
  /\ nonempty (encodeURIComponent s) = nonempty s.
Proof.
  split; [apply encode_alphabet|]. split; [|apply encode_nonempty].
  cbn [forallb js list_ascii_of_string].
  rewrite !(escaped_lacking (encodeURIComponent s)); auto using encode_alphabet.
Qed.

(** X5. For a CID of unreserved characters (letters, digits and the marks
    of the alphabet), getImageUrl is the Pinata gateway URL with the CID as
    it stands and the two optimizer parameters, the width being 300. *)
Theorem getImageUrl_unreserved (cid : jsstring) :
  forallb is_unreserved cid = true ->
  GatewayImage.getImageUrl cid
  = js "https://gateway.pinata.cloud/ipfs/" ++ cid ++ js "?optimizer=image&width=300".
Proof.
  intros H. unfold GatewayImage.getImageUrl. now rewrite encode_unreserved.
Qed.

Lemma getImageUrl_unreserved_witness :
  GatewayImage.getImageUrl (js "Qm123")
  = js "https://gateway.pinata.cloud/ipfs/Qm123?optimizer=image&width=300".
Proof. exact (getImageUrl_unreserved (js "Qm123") eq_refl). Defined.

(** X6. On strings of one-byte code units, where encodeURIComponent always
    returns, extractCID undoes getImageUrl: from the URL built for a
    non-empty CID it returns the percent-encoded CID, which is the CID
    itself when its characters are unreserved. *)
Theorem extractCID_of_getImageUrl (cid : jsstring) :
  cid <> [] ->
  Base.extractCID (VStr (GatewayImage.getImageUrl cid))
  = Returns (VStr (encodeURIComponent cid))
  /\ (forallb is_unreserved cid = true ->
      Base.extractCID (VStr (GatewayImage.getImageUrl cid)) = Returns (VStr cid)).
Proof.
  intros H.
  assert (E : Base.extractCID (VStr (GatewayImage.getImageUrl cid))
              = Returns (VStr (encodeURIComponent cid))).
  { apply (extractCID_gateway (js "gateway.pinata.cloud") (encodeURIComponent cid)
                              (js "?optimizer=image&width=300")).
    - reflexivity.
    - now apply encode_is_token.
    - reflexivity. }
  split; [exact E|]. intros Hu. now rewrite E, encode_unreserved.
Qed.

Lemma extractCID_of_getImageUrl_witness :
  Base.extractCID (VStr (GatewayImage.getImageUrl (js "a/b?c")))
  = Returns (VStr (js "a%2Fb%3Fc")).
Proof.
  apply (@extractCID_of_getImageUrl (js "a/b?c")). discriminate.
Defined.

(** ** Promise.any, whatever the order *)

Section PromiseAnySound.
Variable A : Type.
Implicit Types (promises : list (outcome A)) (errors : list (option error)).

Lemma recorded_initial promises : recorded promises (repeat None (length promises)).
Proof.
  split; [apply repeat_length|].
  intros j x H. now apply nth_error_repeat_None in H.
Qed.

Lemma recorded_step promises errors i e :
  recorded promises errors ->
  nth_error promises i = Some (Throws e) ->
  recorded promises (record_error i e errors).
Proof.
  intros [Hlen Hcons] Hi. split; [now rewrite record_error_length|].
  assert (i < length errors)
    by (rewrite Hlen; apply nth_error_Some; congruence).
  intros j x Hj. destruct (Nat.eq_dec i j) as [<-|Hne].
  - rewrite record_error_same in Hj by assumption. congruence.
  - rewrite record_error_other in Hj by assumption. now apply Hcons.
Qed.

Lemma all_rejected_sound promises :
  forall errors l,
    recorded promises errors ->
    all_rejected errors = Some l ->
    forallb rejected promises = true /\ l = errors_of promises.
Proof.
  induction promises as [|o promises IH]; intros [|x errors] l [Hlen Hcons];
    try discriminate Hlen.
  - now intros [= <-].
  - simpl. destruct x as [e|]; [|discriminate].
    destruct (all_rejected errors) as [l'|] eqn:E; [|discriminate].
    intros [= <-].
    pose proof (Hcons 0 e eq_refl) as H0. simpl in H0. injection H0 as ->.
    destruct (IH errors l') as [Hall ->].
    + split; [now injection Hlen|]. intros j x. apply (Hcons (S j)).
    + exact E.
    + split; [exact Hall | reflexivity].
Qed.

(** Whatever the order: a value comes from a promise of the order that
    is fulfilled with it, and a rejection means that every promise is
    rejected. *)
Lemma any_run_sound promises order :
  forall errors,
    recorded promises errors ->
    (forall a, any_run promises errors order = Some (Returns a) ->
               exists i, In i order /\ nth_error promises i = Some (Returns a))
    /\ (forall e, any_run promises errors order = Some (Throws e) ->
                  forallb rejected promises = true
                  /\ e = AggregateError (errors_of promises)).
Proof.
  induction order as [|i order IH]; intros errors Hrec; simpl.
  - destruct (all_rejected errors) as [l|] eqn:E.
    + split; [discriminate|]. intros e [= <-].
      destruct (@all_rejected_sound promises errors l Hrec E) as [Hall ->]. auto.
    + split; discriminate.
  - destruct (nth_error promises i) as [[a|e]|] eqn:Ei.
    + split; [|discriminate]. intros a' [= <-]. exists i. auto.
    + destruct (IH (record_error i e errors)) as [H1 H2];
        [eapply recorded_step; eassumption|]. split; [|exact H2].
      intros a Ha. destruct (H1 a Ha) as (j & Hj & Hp). exists j. auto.
    + destruct (IH _ Hrec) as [H1 H2]. split; [|exact H2].
      intros a Ha. destruct (H1 a Ha) as (j & Hj & Hp). exists j. auto.
Qed.

End PromiseAnySound.

(** X7. Whatever the order in which requests complete, and whether or not
    all of them do: the value get resolves with is the data of a response
    that one of the completed requests received, and get is rejected only
    when every request is rejected, with the AggregateError of their errors. *)
Theorem gateway_get_sound
        {C : Collaborators} (options : Options) (order : list nat) (CID : jsstring) :
  (forall v, Gateway.get options order CID = Some (Returns v) ->
             exists i response,
               In i order
               /\ nth_error (Gateway.requests options CID) i = Some (Returns response)
               /\ v = data response)
  /\ (forall e, Gateway.get options order CID = Some (Throws e) ->
                forallb rejected (Gateway.requests options CID) = true
                /\ e = AggregateError (errors_of (Gateway.requests options CID))).
Proof.
  unfold Gateway.get, promise_any.
  destruct (@any_run_sound _ (Gateway.requests options CID) order _
              (recorded_initial (Gateway.requests options CID))) as [H1 H2].
  destruct (any_run _ _ order) as [[response|e']|]; split; try discriminate.
  - intros v [= <-]. destruct (H1 response eq_refl) as (i & Hi & Hp). eauto.
  - intros e [= <-]. now apply H2.
Qed.

Lemma gateway_get_sound_witness :
  exists i response,
    In i [1]
    /\ nth_error (@Gateway.requests (Sample.collaborators true) Sample.options
                                    (js "Qmhello")) i = Some (Returns response)
    /\ JString (js "hello") = data response.
Proof.
  apply (proj1 (@gateway_get_sound (Sample.collaborators true) Sample.options [1]
                  (js "Qmhello"))).
  reflexivity.
Defined.

(** ** The facade on URLs and CIDs of every kind *)

Section FacadeMore.
Context {C : Collaborators}.
Variable options : Options.

(** getFile looks at the URL through extractCID only. *)
Lemma getFile_by_cid (order : list nat) (u1 u2 : jsstring) (w : World) :
  Base.extractCID (VStr u1) = Base.extractCID (VStr u2) ->
  IpfsService.getFile options order u1 w = IpfsService.getFile options order u2 w.
Proof.
  intros H. unfold IpfsService.getFile, Gateway.getFile, Node.getFile.
  now rewrite H.
Qed.

Lemma node_getFile_of_cid (u : jsstring) (v : value) (w : World) :
  Base.extractCID (VStr u) = Returns v ->
  Node.getFile u w
  = match v with
    | VStr (x :: c) =>
        match client_cat (x :: c) (daemon w) with
        | (Returns b, d) =>
            (Returns {| buffer := b; type := fileTypeFromBuffer b |}, with_daemon d w)
        | (Throws e, d) => (Throws e, with_daemon d w)
        end
    | _ => (Throws (Error "Invalid CID"), w)
    end.
Proof.
  intros H. unfold Node.getFile. rewrite tryCatch_rethrow.
  unfold bind, lift. rewrite H.
  destruct v as [| |[|x c]]; try reflexivity.
  unfold client. now destruct (client_cat (x :: c) (daemon w)) as [[b|e] d].
Qed.

End FacadeMore.

(** X8. getFile on a URL from which no CID can be taken (non-empty, nothing
    but question marks once the first ipfs:// is out): both providers fail
    on extractCID, and the facade rejects with the TypeError, whatever the
    gateways, the order and the daemon, and leaves the world untouched. *)
Theorem getFile_without_cid
        {C : Collaborators} (options : Options) (order : list nat)
        (u : jsstring) (w : World) :
  u <> [] -> has_cid_char (scheme_stripped u) = false ->
  Gateway.getFile options order u = Some (Throws TypeError)
  /\ Node.getFile u w = (Throws TypeError, w)
  /\ IpfsService.getFile options order u w = (Some (Throws TypeError), w).
Proof.
  intros Hu H. pose proof (extractCID_no_cid_char Hu H) as E.
  assert (G : Gateway.getFile options order u = Some (Throws TypeError))
    by (unfold Gateway.getFile; now rewrite E).
  assert (N : Node.getFile u w = (Throws TypeError, w)).
  { unfold Node.getFile. rewrite tryCatch_rethrow. unfold bind, lift. now rewrite E. }
  repeat split; auto. unfold IpfsService.getFile. now rewrite G, N.
Qed.

Lemma getFile_without_cid_witness :
  @IpfsService.getFile (Sample.collaborators true) Sample.options [0; 1] (js "??")
                       (Sample.pinned_world true)
  = (Some (Throws TypeError), Sample.pinned_world true).
Proof.
  apply (@getFile_without_cid (Sample.collaborators true)); [discriminate | reflexivity].
Defined.

(** X9. The four forms of the URL of a CID token X are one and the same call
    of getFile: ipfs://X, https://<host>/ipfs/X with or without a query
    string and https://X.ipfs.dweb.link/ give what getFile(X) gives, and the
    node provider reads the block X from the daemon. *)
Theorem getFile_same_for_all_shapes
        {C : Collaborators} (options : Options) (order : list nat)
        (X h qs : jsstring) (w : World) :
  cid_token X = true -> host_name h = true -> query_part qs = true ->
  IpfsService.getFile options order (js "ipfs://" ++ X) w
  = IpfsService.getFile options order X w
  /\ IpfsService.getFile options order (js "https://" ++ h ++ js "/ipfs/" ++ X ++ qs) w
     = IpfsService.getFile options order X w
  /\ IpfsService.getFile options order (js "https://" ++ X ++ js ".ipfs.dweb.link/") w
     = IpfsService.getFile options order X w
  /\ Node.getFile X w
     = match client_cat X (daemon w) with
       | (Returns b, d) =>
           (Returns {| buffer := b; type := fileTypeFromBuffer b |}, with_daemon d w)
       | (Throws e, d) => (Throws e, with_daemon d w)
       end.
Proof.
  intros HX Hh Hqs.
  pose proof (extractCID_bare _ HX) as E.
  repeat split.
  - apply getFile_by_cid. now rewrite extractCID_scheme, E.
  - apply getFile_by_cid. now rewrite extractCID_gateway, E.
  - apply getFile_by_cid. now rewrite extractCID_subdomain, E.
  - rewrite (node_getFile_of_cid _ _ E).
    apply cid_token_spec in HX as (HX & _). now destruct X.
Qed.

Lemma getFile_same_for_all_shapes_witness :
  fst (@IpfsService.getFile (Sample.collaborators true) Sample.options []
         (js "https://Qmhello.ipfs.dweb.link/") (Sample.pinned_world true))
  = fst (@IpfsService.getFile (Sample.collaborators true) Sample.options []
           (js "Qmhello") (Sample.pinned_world true)).
Proof.
  exact (f_equal fst
           (proj1 (proj2 (proj2
              (@getFile_same_for_all_shapes (Sample.collaborators true) Sample.options []
                 (js "Qmhello") (js "gw") [] (Sample.pinned_world true)
                 eq_refl eq_refl eq_refl))))).
Defined.

(** X10. When extractCID gives null or undefined for the URL (the empty
    string; an input that ends with ipfs.dweb.link/ without being of the
    subdomain form), the gateway provider still asks every gateway, for
    <gateway>null or <gateway>undefined, and the facade returns what they
    send; only the node provider says Invalid CID, which is the error of
    the facade when every gateway rejects. *)
Theorem getFile_null_cid
        {C : Collaborators} (options : Options) (order : list nat)
        (u : jsstring) (v : value) (w : World) :
  Base.extractCID (VStr u) = Returns v ->
  v = VNull \/ v = VUndefined ->
  Node.getFile u w = (Throws (Error "Invalid CID"), w)
  /\ IpfsService.getFile options order u w
     = (match promise_any
                (map (fun gateway => http_get_arraybuffer (gateway ++ Gateway.template v))
                     (gatewaysUrls options)) order with
        | Some (Returns response) =>
            Some (Returns {| buffer := data response;
                             type := fileTypeFromBuffer (data response) |})
        | Some (Throws _) => Some (Throws (Error "Invalid CID"))
        | None => None
        end, w).
Proof.
  intros E Hv.
  assert (N : Node.getFile u w = (Throws (Error "Invalid CID"), w))
    by (rewrite (node_getFile_of_cid _ _ E); now destruct Hv as [-> | ->]).
  split; [exact N|].
  unfold IpfsService.getFile, Gateway.getFile. rewrite E, N.
  now destruct (promise_any _ order) as [[r|e]|].
Qed.

Lemma getFile_null_cid_witness :
  @IpfsService.getFile (Sample.collaborators true) Sample.options [0; 1] (js "")
                       (Sample.pinned_world true)
  = (Some (Throws (Error "Invalid CID")), Sample.pinned_world true).
Proof.
  exact (proj2 (@getFile_null_cid (Sample.collaborators true) Sample.options [0; 1]
                  (js "") VNull (Sample.pinned_world true) eq_refl (or_introl eq_refl))).
Defined.

(** X11. get with the empty CID does not reach the daemon: the node
    provider throws Invalid CID, the world is as it was, and the facade asks
    every gateway for its bare URL. *)
Theorem get_empty_cid
        {C : Collaborators} (options : Options) (order : list nat) (w : World) :
  Node.get [] w = (Throws (Error "Invalid CID"), w)
  /\ IpfsService.get options order [] w = (Gateway.get options order [], w)
  /\ Gateway.requests options [] = map http_get (gatewaysUrls options).
Proof.
  repeat split. unfold Gateway.requests. apply map_ext. intros g.
  now rewrite app_nil_r.
Qed.

(** X12. When the daemon holds the block of a non-empty CID, the
    controller's read returns its content, parsed when it is JSON and raw
    otherwise, whatever the gateways would answer and in whatever order. *)
Theorem readContent_from_node
        {C : Collaborators} (options : Options) (order : list nat)
        (cid content : jsstring) (d : Daemon) (w : World) :
  cid <> [] ->
  client_cat cid (daemon w) = (Returns content, d) ->
  IpfsController.readContent options order cid w
  = (Some (Returns (parsed_or_raw content)), with_daemon d w).
Proof.
  intros Hc Hcat. apply nonempty_true in Hc.
  unfold IpfsController.readContent, IpfsService.get, Node.get.
  rewrite tryCatch_rethrow. unfold bind, client, ret. rewrite Hc. cbn [ret].
  rewrite Hcat. unfold parsed_or_raw.
  now destruct (JSON_parse content).
Qed.

Lemma readContent_from_node_witness :
  @IpfsController.readContent (Sample.collaborators true) Sample.options [0; 1]
                              (js "Qmhello") (Sample.pinned_world true)
  = (Some (Returns (JString (js "hello"))), Sample.pinned_world true).
Proof.
  apply (@readContent_from_node (Sample.collaborators true) Sample.options [0; 1]
           (js "Qmhello") (js "hello")); [discriminate | reflexivity].
Defined.

(** ** Pin and unpin together *)

Section Ledger.
Context {C : Collaborators}.

Lemma records_of_none (c : jsstring) (l : list PinRecord) :
  records_of c l = 0 -> find (fun r => JsString.eqb (pin_cid r) c) l = None.
Proof.
  unfold records_of. induction l as [|r l IH]; simpl; [reflexivity|].
  destruct (JsString.eqb (pin_cid r) c); [discriminate | assumption].
Qed.

Lemma find_app_first (c : jsstring) (l l' : list PinRecord) (p : PinRecord) :
  find (fun r => JsString.eqb (pin_cid r) c) l = Some p ->
  find (fun r => JsString.eqb (pin_cid r) c) (l ++ l') = Some p.
Proof.
  induction l as [|r l IH]; simpl; [discriminate|].
  now destruct (JsString.eqb (pin_cid r) c).
Qed.

Lemma find_app_later (c : jsstring) (l l' : list PinRecord) :
  find (fun r => JsString.eqb (pin_cid r) c) l = None ->
  find (fun r => JsString.eqb (pin_cid r) c) (l ++ l')
  = find (fun r => JsString.eqb (pin_cid r) c) l'.
Proof.
  induction l as [|r l IH]; simpl; [reflexivity|].
  now destruct (JsString.eqb (pin_cid r) c).
Qed.



End Ledger.



(** X14. With two records of one CID the older one decides: after a pin by
    one wallet and a pin of the same content by another, the second wallet is
    refused by unpin although a record of its own is in the ledger, and both
    records stay. *)
Theorem second_owner_cannot_unpin
        {C : Collaborators} (content : jsstring) (first second : Entity)
        (b1 b2 : bool) (w w1 w2 : World) (cid : jsstring) :
  Node.pin content first b1 w = (Returns cid, w1) ->
  Node.pin content second b2 w1 = (Returns cid, w2) ->
  records_of cid (ledger w) = 0 ->
  walletId second <> walletId first ->
  Node.unpin cid second w2
  = (Throws (Error "Unauthorized: only content owner can unpin"), w2)
  /\ In (pin_record cid second w1) (ledger w2)
  /\ records_of cid (ledger w2) = 2.
Proof.
  intros H1 H2 Hnone Hne.
  pose proof (@pin_twice C content first second b1 b2 w w1 w2 cid H1 H2) as Htwo.
  apply pin_appends in H1, H2. apply records_of_none in Hnone.
  split; [|split].
  - rewrite unpin_unfold, H2, H1.
    rewrite (find_app_first _ _ [pin_record cid second w1]
               (p := pin_record cid first w)).
    + cbn [pin_record pin_owner]. rewrite eqb_neq; [reflexivity | congruence].
    + rewrite (find_app_later _ _ _ Hnone). simpl. now rewrite eqb_refl.
  - rewrite H2. apply in_or_app. right. now left.
  - rewrite Htwo. unfold records_of.
    destruct (filter _ (ledger w)) eqn:F; [reflexivity|].
    exfalso. assert (Hin : In p (filter (fun r => JsString.eqb (pin_cid r) cid) (ledger w)))
      by (rewrite F; now left).
    apply filter_In in Hin as [Hin Hp].
    apply (find_none _ _ Hnone) in Hin. congruence.
Qed.

Lemma second_owner_cannot_unpin_witness :
  let C := Sample.collaborators true in
  let w1 := snd (@Node.pin C (js "hello") Sample.alice true (Sample.empty_world true)) in
  let w2 := snd (@Node.pin C (js "hello") Sample.bob true w1) in
  fst (@Node.unpin C (js "Qmhello") Sample.bob w2)
  = Throws (Error "Unauthorized: only content owner can unpin").
Proof.
  intros C w1 w2.
  destruct (@second_owner_cannot_unpin C (js "hello") Sample.alice Sample.bob true true
              (Sample.empty_world true) w1 w2 (js "Qmhello") eq_refl eq_refl eq_refl)
    as [H _]; [discriminate|].
  now rewrite H.
Defined.

(** X15. A pin that throws has written nothing to the ledger and emitted
    nothing when it is the add of the content or the write of the record
    that threw.  Otherwise it is the emit that threw, with broadcast only:
    the content is added and the record written, and they stay; on a node
    without an event emitter the error is a TypeError and no event was
    handed over, on a node with one the event was handed over and the error
    is a subscriber's.  The node IpfsModule.forRootAsync builds has no
    emitter: there every pin with broadcast throws, with a TypeError once
    the record is written. *)
Theorem failed_pin_effects
        {C : Collaborators} (content : jsstring) (owner : Entity) (w : World) :
  (forall broadcast e w',
      Node.pin content owner broadcast w = (Throws e, w') ->
      (ledger w' = ledger w /\ emitted w' = emitted w
       /\ (fst (client_add content (daemon w)) = Throws e
           \/ exists cid, fst (client_add content (daemon w)) = Returns cid
                          /\ validate (pin_record cid owner w) = Some e))
      \/ (broadcast = true
          /\ exists cid,
               fst (client_add content (daemon w)) = Returns cid
               /\ validate (pin_record cid owner w) = None
               /\ ledger w' = ledger w ++ [pin_record cid owner w]
               /\ ((has_eventEmitter = false /\ e = TypeError
                    /\ emitted w' = emitted w)
                   \/ (has_eventEmitter = true
                       /\ subscribers (write_event content owner) = Some e
                       /\ emitted w' = emitted w ++ [write_event content owner]))))
  /\ (has_eventEmitter = false ->
      (forall cid w', Node.pin content owner true w <> (Returns cid, w'))
      /\ (forall cid d,
             client_add content (daemon w) = (Returns cid, d) ->
             validate (pin_record cid owner w) = None ->
             Node.pin content owner true w
             = (Throws TypeError,
                with_ledger (ledger w ++ [pin_record cid owner w]) (with_daemon d w)))).
Proof.
  split.
  - intros broadcast e w'. rewrite pin_unfold.
    destruct (client_add content (daemon w)) as [[c|e0] d].
    + destruct (validate (pin_record c owner w)) as [e1|] eqn:V.
      * intros [= <- <-]. left. repeat split. right. now exists c.
      * destruct broadcast; [|discriminate].
        destruct has_eventEmitter.
        -- destruct (subscribers (write_event content owner)) as [e1|] eqn:S;
             [|discriminate].
           intros [= <- <-]. right. split; [reflexivity|]. exists c.
           repeat split; try assumption. right. repeat split.
        -- intros [= <- <-]. right. split; [reflexivity|]. exists c.
           repeat split; try assumption. left. repeat split.
    + intros [= <- <-]. left. repeat split. now left.
  - intros He. split.
    + intros cid w'. rewrite pin_unfold, He.
      destruct (client_add content (daemon w)) as [[c|e0] d]; [|discriminate].
      destruct (validate (pin_record c owner w)); discriminate.
    + intros cid d Ha Hv. now rewrite pin_unfold, He, Ha, Hv.
Qed.

Lemma failed_pin_effects_witness :
  ledger (snd (@Node.pin (Sample.collaborators false) (js "hello") Sample.alice true
                         (Sample.pinned_world false)))
  = ledger (Sample.pinned_world false)
  /\ (let C := IpfsModule.forRootAsync (Sample.collaborators true) in
      let w := IpfsModule.world (Sample.empty_world true) in
      fst (@Node.pin C (js "hello") Sample.alice true w) = Throws TypeError
      /\ records_of (js "Qmhello")
                    (ledger (snd (@Node.pin C (js "hello") Sample.alice true w))) = 1
      /\ emitted (snd (@Node.pin C (js "hello") Sample.alice true w)) = []).
Proof.
  split.
  - destruct (proj1 (@failed_pin_effects (Sample.collaborators false) (js "hello")
                       Sample.alice (Sample.pinned_world false))
                    true Sample.unreachable
                    (snd (@Node.pin (Sample.collaborators false) (js "hello")
                                    Sample.alice true (Sample.pinned_world false)))
                    eq_refl) as [[H _] | (_ & c & H & _)].
    + exact H.
    + discriminate H.
  - intros C w.
    rewrite (proj2 (proj2 (@failed_pin_effects C (js "hello") Sample.alice w) eq_refl)
                   (js "Qmhello") [(js "Qmhello", js "hello")] eq_refl eq_refl).
    repeat split.
Defined.

(** ** uploadAndPin *)

Section UploadFacts.
Context {C : Collaborators}.
Variable client_addAll : jsstring -> Daemon -> outcome (list jsstring) * Daemon.

Lemma upload_unfold (file : MulterFile) (session : Entity) (w : World) :
  Upload.uploadAndPin client_addAll file session w
  = match client_addAll (file_buffer file) (daemon w) with
    | (Throws e, d) => (Throws e, with_daemon d w)
    | (Returns results, d) =>
        match Upload.lastResult results with
        | None => (Throws TypeError, with_daemon d w)
        | Some cid =>
            match validate (pin_record cid session w) with
            | Some e => (Throws e, with_daemon d w)
            | None =>
                (Returns cid,
                 with_ledger (ledger w ++ [pin_record cid session w]) (with_daemon d w))
            end
        end
    end.
Proof.
  unfold Upload.uploadAndPin, bind, client, date_now, create, ret, throw.
  destruct (client_addAll (file_buffer file) (daemon w)) as [[results|e] d];
    [|reflexivity].
  destruct (Upload.lastResult results) as [cid|]; [|reflexivity].
  cbn [clock with_daemon]. fold (pin_record cid session w).
  now destruct (validate (pin_record cid session w)).
Qed.

End UploadFacts.

(** X16. An upload that returns a CID has written exactly one record, of that
    CID, the last one addAll yielded, for the wallet of the session; unlike
    pin it hands nothing to the event emitter. *)
Theorem upload_effects
        {C : Collaborators}
        (client_addAll : jsstring -> Daemon -> outcome (list jsstring) * Daemon)
        (file : MulterFile) (session : Entity) (w w' : World) (cid : jsstring) :
  Upload.uploadAndPin client_addAll file session w = (Returns cid, w') ->
  (exists results,
      fst (client_addAll (file_buffer file) (daemon w)) = Returns results
      /\ Upload.lastResult results = Some cid)
  /\ ledger w' = ledger w ++ [pin_record cid session w]
  /\ emitted w' = emitted w
  /\ daemon w' = snd (client_addAll (file_buffer file) (daemon w)).
Proof.
  rewrite upload_unfold.
  destruct (client_addAll (file_buffer file) (daemon w)) as [[results|e] d];
    [|discriminate].
  destruct (Upload.lastResult results) as [c|] eqn:L; [|discriminate].
  destruct (validate (pin_record c session w)); [discriminate|].
  intros [= <- <-]. repeat split. now exists results.
Qed.

Lemma upload_effects_witness :
  let w' := snd (@Upload.uploadAndPin (Sample.collaborators true) (SampleMore.addAll true)
                   SampleMore.file Sample.alice (Sample.empty_world true)) in
  ledger w' = [@pin_record (Sample.collaborators true) (js "Qmhello") Sample.alice
                           (Sample.empty_world true)]
  /\ emitted w' = [].
Proof.
  intros w'.
  destruct (@upload_effects (Sample.collaborators true) (SampleMore.addAll true)
              SampleMore.file Sample.alice (Sample.empty_world true) w' (js "Qmhello")
              eq_refl) as (_ & H1 & H2 & _).
  split; assumption.
Defined.

(** X17. An upload that throws has written no record and emitted nothing,
    and what addAll did to the daemon stays; when addAll yields no result at
    all, the read of lastResult.cid raises a TypeError. *)
Theorem upload_failure
        {C : Collaborators}
        (client_addAll : jsstring -> Daemon -> outcome (list jsstring) * Daemon)
        (file : MulterFile) (session : Entity) (w : World) :
  (forall e w', Upload.uploadAndPin client_addAll file session w = (Throws e, w') ->
                ledger w' = ledger w /\ emitted w' = emitted w
                /\ daemon w' = snd (client_addAll (file_buffer file) (daemon w)))
  /\ (forall d, client_addAll (file_buffer file) (daemon w) = (Returns [], d) ->
                Upload.uploadAndPin client_addAll file session w
                = (Throws TypeError, with_daemon d w)).
Proof.
  rewrite upload_unfold. split.
  - intros e w'.
    destruct (client_addAll (file_buffer file) (daemon w)) as [[results|e0] d];
      [|now intros [= _ <-]].
    destruct (Upload.lastResult results) as [c|]; [|now intros [= _ <-]].
    destruct (validate (pin_record c session w)); [|discriminate].
    now intros [= _ <-].
  - now intros d ->.
Qed.

Lemma upload_failure_witness :
  ledger (snd (@Upload.uploadAndPin (Sample.collaborators false) (SampleMore.addAll false)
                 SampleMore.file Sample.alice (Sample.pinned_world false)))
  = ledger (Sample.pinned_world false).
Proof.
  apply (proj1 (@upload_failure (Sample.collaborators false) (SampleMore.addAll false)
                  SampleMore.file Sample.alice (Sample.pinned_world false))
               Sample.unreachable).
  reflexivity.
Defined.



(** ** getMetadata *)

Section MetadataFacts.

Lemma find_set_field_same (key : jsstring) (v : jsval) (fields : list (jsstring * jsval)) :
  exists k, find (fun f => JsString.eqb (fst f) key) (set_field key v fields)
            = Some (k, v).
Proof.
  induction fields as [|[k x] fields IH]; simpl.
  - exists key. now rewrite eqb_refl.
  - destruct (JsString.eqb k key) eqn:E; simpl; rewrite E; [now exists k | exact IH].
Qed.

Lemma find_set_field_other (key key' : jsstring) (v : jsval)
      (fields : list (jsstring * jsval)) :
  key' <> key ->
  find (fun f => JsString.eqb (fst f) key') (set_field key v fields)
  = find (fun f => JsString.eqb (fst f) key') fields.
Proof.
  intros Hne. induction fields as [|[k x] fields IH]; simpl.
  - rewrite eqb_neq; [reflexivity | congruence].
  - destruct (JsString.eqb k key) eqn:E; simpl.
    + apply eqb_eq in E; subst k.
      rewrite eqb_neq; [reflexivity | congruence].
    + now rewrite IH.
Qed.

(** The object after the assignment: the property assigned holds the new
    value, every other one is as it was. *)
Lemma read_after_assignment (key : jsstring) (v : jsval)
      (fields : list (jsstring * jsval)) :
  read_named (JObject (set_field key v fields)) key = Returns v
  /\ forall key', key' <> key ->
                  read_named (JObject (set_field key v fields)) key'
                  = read_named (JObject fields) key'.
Proof.
  split.
  - simpl. destruct (find_set_field_same key v fields) as [k ->]. reflexivity.
  - intros key' Hne. simpl. now rewrite find_set_field_other.
Qed.

Lemma extractCID_any_falsy (v : jsval) :
  js_truthy v = false -> extractCID_any v = Returns VNull.
Proof.
  destruct v as [| |b|n|s|items|fields]; simpl; try reflexivity; try discriminate.
  - now intros ->.
  - now intros ->.
  - destruct s; [reflexivity | discriminate].
Qed.

Context {C : Collaborators}.
Variable options : Options.
Variable base64_decode : jsstring -> jsstring.

(** getMetadata once the metadata object has arrived. *)
Lemma getMetadata_of_object (order : list nat) (input : jsstring) (CID : value)
      (fields : list (jsstring * jsval)) :
  Base.extractCID (VStr (base64_decode input)) = Returns CID ->
  Gateway.get options order (Gateway.template CID) = Some (Returns (JObject fields)) ->
  GatewayMetadata.getMetadata options base64_decode order input
  = Some
      (and_then (read_named (JObject fields) (js "image")) (fun image_field =>
       and_then (if js_truthy image_field then Returns image_field
                 else read_named (JObject fields) (js "CID")) (fun chosen =>
       and_then (extractCID_any chosen) (fun image =>
       Returns {| target := JObject fields;
                  image_url := GatewayImage.getImageUrl (Gateway.template image) |})))).
Proof.
  intros E G. unfold GatewayMetadata.getMetadata. rewrite E, G. reflexivity.
Qed.

End MetadataFacts.

(** X19. On strings of one-byte code units, where encodeURIComponent
    always returns: when the gateways deliver a metadata object whose image
    is a non-empty string from which extractCID takes X, getMetadata resolves
    with that object, its image replaced by getImageUrl(X): reading image
    gives the new URL, every other property is as it was received; and
    extractCID of the new URL is the percent-encoded X again. *)
Theorem getMetadata_rewrites_image
        {C : Collaborators} (options : Options)
        (base64_decode : jsstring -> jsstring)
        (order : list nat) (input : jsstring) (CID : value)
        (fields : list (jsstring * jsval)) (img X : jsstring) :
  Base.extractCID (VStr (base64_decode input)) = Returns CID ->
  Gateway.get options order (Gateway.template CID) = Some (Returns (JObject fields)) ->
  read_named (JObject fields) (js "image") = Returns (JString img) ->
  Base.extractCID (VStr img) = Returns (VStr X) ->
  exists resolved,
    GatewayMetadata.getMetadata options base64_decode order input
    = Some (Returns {| target := JObject fields;
                       image_url := GatewayImage.getImageUrl X |})
    /\ assigned_object {| target := JObject fields;
                          image_url := GatewayImage.getImageUrl X |} = Some resolved
    /\ read_named resolved (js "image") = Returns (JString (GatewayImage.getImageUrl X))
    /\ (forall key, key <> js "image" ->
                    read_named resolved key = read_named (JObject fields) key)
    /\ Base.extractCID (VStr (GatewayImage.getImageUrl X))
       = Returns (VStr (encodeURIComponent X)).
Proof.
  intros E G Himg HX.
  assert (Hne : img <> []) by (intros ->; discriminate HX).
  pose proof (@extractCID_result_nonempty img X HX) as HXne.
  eexists. split; [|split; [reflexivity|]].
  - erewrite getMetadata_of_object by eassumption.
    rewrite Himg. cbn [and_then js_truthy].
    rewrite (proj2 (nonempty_true img) Hne). cbn [and_then extractCID_any].
    rewrite HX. reflexivity.
  - destruct (read_after_assignment (js "image")
                (JString (GatewayImage.getImageUrl X)) fields) as [R1 R2].
    split; [exact R1|]. split; [exact R2|].
    apply (extractCID_gateway (js "gateway.pinata.cloud") (encodeURIComponent X)
                              (js "?optimizer=image&width=300"));
      [reflexivity | now apply encode_is_token | reflexivity].
Qed.

Lemma getMetadata_rewrites_image_witness :
  @GatewayMetadata.getMetadata SampleMore.collaborators Sample.options
     SampleMore.base64_decode [0; 1] (js "aXBmczovL1FtbWV0YQ==")
  = Some (Returns
            {| target := SampleMore.metadata;
               image_url :=
                 js "https://gateway.pinata.cloud/ipfs/Qmimg?optimizer=image&width=300" |}).
Proof.
  destruct (@getMetadata_rewrites_image SampleMore.collaborators Sample.options
              SampleMore.base64_decode [0; 1] (js "aXBmczovL1FtbWV0YQ==")
              (VStr (js "Qmmeta"))
              [(js "name", JString (js "token")); (js "image", JString (js "ipfs://Qmimg"))]
              (js "ipfs://Qmimg") (js "Qmimg") eq_refl eq_refl eq_refl eq_refl)
    as (resolved & H & _).
  exact H.
Defined.

(** X20. A metadata object whose image is missing or falsy: the CID property
    takes its place, and when that one is missing or falsy too, nothing is
    raised: extractCID gives null and the image becomes the gateway URL of
    the word null. *)
Theorem getMetadata_without_image
        {C : Collaborators} (options : Options)
        (base64_decode : jsstring -> jsstring)
        (order : list nat) (input : jsstring) (CID : value)
        (fields : list (jsstring * jsval)) (i : jsval) :
  Base.extractCID (VStr (base64_decode input)) = Returns CID ->
  Gateway.get options order (Gateway.template CID) = Some (Returns (JObject fields)) ->
  read_named (JObject fields) (js "image") = Returns i ->
  js_truthy i = false ->
  (forall c X,
      read_named (JObject fields) (js "CID") = Returns (JString c) ->
      Base.extractCID (VStr c) = Returns (VStr X) ->
      GatewayMetadata.getMetadata options base64_decode order input
      = Some (Returns {| target := JObject fields;
                         image_url := GatewayImage.getImageUrl X |}))
  /\ (forall c,
         read_named (JObject fields) (js "CID") = Returns c ->
         js_truthy c = false ->
         GatewayMetadata.getMetadata options base64_decode order input
         = Some (Returns
                   {| target := JObject fields;
                      image_url :=
                        js "https://gateway.pinata.cloud/ipfs/null?optimizer=image&width=300" |})).
Proof.
  intros E G Hi Hfalsy.
  erewrite getMetadata_of_object by eassumption.
  rewrite Hi. cbn [and_then]. rewrite Hfalsy. split.
  - intros c X Hc HX. rewrite Hc. cbn [and_then extractCID_any]. now rewrite HX.
  - intros c Hc Hcf. rewrite Hc. cbn [and_then].
    now rewrite (extractCID_any_falsy _ Hcf).
Qed.

Lemma getMetadata_without_image_witness :
  let C := {| Daemon := unit;
              client_add _ d := (Throws (ExternalError 0), d);
              client_cat _ d := (Throws (ExternalError 0), d);
              client_pin_rm _ d := (Throws (ExternalError 0), d);
              validate _ := None;
              has_eventEmitter := true;
              subscribers _ := None;
              JSON_parse _ := None;
              FileType := unit;
              fileTypeFromBuffer _ := None;
              http_get _ := Returns {| data := JObject [(js "name", JString (js "token"))] |};
              http_get_arraybuffer _ := Throws (ExternalError 504) |} in
  @GatewayMetadata.getMetadata C Sample.options SampleMore.base64_decode [0]
     (js "aXBmczovL1FtbWV0YQ==")
  = Some (Returns
            {| target := JObject [(js "name", JString (js "token"))];
               image_url :=
                 js "https://gateway.pinata.cloud/ipfs/null?optimizer=image&width=300" |}).
Proof.
  intros C.
  apply (proj2 (@getMetadata_without_image C Sample.options SampleMore.base64_decode [0]
                  (js "aXBmczovL1FtbWV0YQ==") (VStr (js "Qmmeta"))
                  [(js "name", JString (js "token"))] JUndefined
                  eq_refl eq_refl eq_refl eq_refl)
               JUndefined); reflexivity.
Defined.

(** X21. getMetadata is rejected with a TypeError, whatever the gateways,
    when the decoded input is not empty and holds nothing but question marks
    once the first ipfs:// is out, and also when the gateways deliver null.
    An input that decodes to the empty string is not turned down: every
    gateway is asked for <gateway>null, and when they all reject, each
    request having completed, their AggregateError is the outcome. *)
Theorem getMetadata_failures
        {C : Collaborators} (options : Options)
        (base64_decode : jsstring -> jsstring)
        (order : list nat) (input : jsstring) :
  (base64_decode input <> [] ->
   has_cid_char (scheme_stripped (base64_decode input)) = false ->
   GatewayMetadata.getMetadata options base64_decode order input
   = Some (Throws TypeError))
  /\ (forall CID,
         Base.extractCID (VStr (base64_decode input)) = Returns CID ->
         Gateway.get options order (Gateway.template CID) = Some (Returns JNull) ->
         GatewayMetadata.getMetadata options base64_decode order input
         = Some (Throws TypeError))
  /\ (base64_decode input = [] ->
      Permutation order (seq 0 (length (gatewaysUrls options))) ->
      forallb rejected (Gateway.requests options (js "null")) = true ->
      GatewayMetadata.getMetadata options base64_decode order input
      = Some (Throws (AggregateError (errors_of (Gateway.requests options (js "null")))))).
Proof.
  unfold GatewayMetadata.getMetadata. split; [|split].
  - intros Hne H. now rewrite (extractCID_no_cid_char Hne H).
  - intros CID E G. now rewrite E, G.
  - intros E Hperm Hall. rewrite E. cbn [Base.extractCID truthy Gateway.template].
    pose proof (gateway_get_settles options (js "null") Hperm) as S.
    rewrite Hall in S. now rewrite S.
Qed.

Lemma getMetadata_failures_witness :
  @GatewayMetadata.getMetadata SampleMore.collaborators Sample.options
     SampleMore.base64_decode [1; 0] (js "")
  = Some (Throws (AggregateError [ExternalError 504; ExternalError 504])).
Proof.
  apply (proj2 (proj2 (@getMetadata_failures SampleMore.collaborators Sample.options
                         SampleMore.base64_decode [1; 0] (js "")))).
  - reflexivity.
  - apply perm_swap.
  - reflexivity.
Defined.

(** ** The race of getFile and the parameter of the facade's pin *)

(** X22. getFile of the gateway provider on a URL of which extractCID takes
    the string X: whatever the order, the buffer it resolves with is the
    data of a response that a completed request for <gateway>X received,
    with the type detected on that very buffer; when every request
    completes, it is rejected exactly when all of them are, with their
    AggregateError. *)
Theorem gateway_getFile_race
        {C : Collaborators} (options : Options) (order : list nat)
        (u X : jsstring) :
  Base.extractCID (VStr u) = Returns (VStr X) ->
  let promises := map (fun gateway => http_get_arraybuffer (gateway ++ X))
                      (gatewaysUrls options) in
  (forall r, Gateway.getFile options order u = Some (Returns r) ->
             exists i response,
               In i order /\ nth_error promises i = Some (Returns response)
               /\ r = {| buffer := data response;
                         type := fileTypeFromBuffer (data response) |})
  /\ (forall e, Gateway.getFile options order u = Some (Throws e) ->
                forallb rejected promises = true
                /\ e = AggregateError (errors_of promises))
  /\ (Permutation order (seq 0 (length (gatewaysUrls options))) ->
      if forallb rejected promises
      then Gateway.getFile options order u
           = Some (Throws (AggregateError (errors_of promises)))
      else exists r, Gateway.getFile options order u = Some (Returns r)).
Proof.
  intros E promises. unfold Gateway.getFile. rewrite E. cbn [Gateway.template].
  fold promises. split; [|split].
  - unfold promise_any.
    destruct (@any_run_sound _ promises order _ (recorded_initial promises)) as [H1 _].
    destruct (any_run _ _ order) as [[response|e']|]; try discriminate.
    intros r [= <-]. destruct (H1 response eq_refl) as (i & Hi & Hp). eauto.
  - unfold promise_any.
    destruct (@any_run_sound _ promises order _ (recorded_initial promises)) as [_ H2].
    destruct (any_run _ _ order) as [[response|e']|]; try discriminate.
    intros e [= <-]. now apply H2.
  - intros Hperm.
    assert (Hperm' : Permutation order (seq 0 (length promises)))
      by (unfold promises; now rewrite length_map).
    destruct (forallb rejected promises) eqn:Hall.
    + now rewrite promise_any_all_rejected.
    + destruct (promise_any_fulfilled _ Hperm' Hall) as [a ->]. eauto.
Qed.

Lemma gateway_getFile_race_witness :
  exists r, @Gateway.getFile (Sample.collaborators true) Sample.options [1; 0]
                             (js "ipfs://Qmhello") = Some (Returns r).
Proof.
  exact (proj2 (proj2 (@gateway_getFile_race (Sample.collaborators true) Sample.options
                         [1; 0] (js "ipfs://Qmhello") (js "Qmhello") eq_refl))
               (perm_swap 0 1 [])).
Defined.

(** X23. The facade's pin takes its first parameter for content, not for a
    CID: once the daemon has added the text and the record is valid, the
    record written is of the CID the daemon gives to that text, whether the
    pin then returns or throws, and an unpin of the parameter itself by the
    same owner finds nothing, unless the daemon gave back the very text.  On
    the node IpfsModule.forRootAsync builds, which has no event emitter, the
    pin throws a TypeError after the record is written and no event is
    emitted; on a node with an emitter an ipfs:write event is emitted and the
    pin returns the CID, or throws the error of a subscriber. *)
Theorem facade_pin_takes_content
        {C : Collaborators} (X : jsstring) (owner : Entity) (w : World)
        (cid : jsstring) (d : Daemon) :
  client_add X (daemon w) = (Returns cid, d) ->
  validate (pin_record cid owner w) = None ->
  cid <> X ->
  records_of X (ledger w) = 0 ->
  let w1 := snd (IpfsService.pin X owner w) in
  ledger w1 = ledger w ++ [pin_record cid owner w]
  /\ IpfsService.unpin X owner w1 = (Throws (Error "Content not pinned"), w1)
  /\ (has_eventEmitter = false ->
      fst (IpfsService.pin X owner w) = Throws TypeError
      /\ emitted w1 = emitted w)
  /\ (has_eventEmitter = true ->
      emitted w1 = emitted w ++ [write_event X owner]
      /\ fst (IpfsService.pin X owner w)
         = match subscribers (write_event X owner) with
           | Some e => Throws e
           | None => Returns cid
           end).
Proof.
  intros Ha Hv Hne Hnone w1. unfold IpfsService.pin, IpfsService.unpin in *.
  assert (Hl : ledger w1 = ledger w ++ [pin_record cid owner w]).
  { subst w1. rewrite pin_unfold, Ha, Hv.
    destruct has_eventEmitter; [|reflexivity].
    now destruct (subscribers (write_event X owner)). }
  split; [exact Hl|]. split; [|split].
  - apply records_of_none in Hnone.
    rewrite unpin_unfold, Hl, (find_app_later _ _ _ Hnone). simpl.
    rewrite eqb_neq by assumption. reflexivity.
  - intros He. subst w1. rewrite pin_unfold, Ha, Hv, He. split; reflexivity.
  - intros He. subst w1. rewrite pin_unfold, Ha, Hv, He.
    destruct (subscribers (write_event X owner)); split; reflexivity.
Qed.

Lemma facade_pin_takes_content_witness :
  (let C := IpfsModule.forRootAsync (Sample.collaborators true) in
   let w := IpfsModule.world (Sample.empty_world true) in
   let w1 := snd (@IpfsService.pin C (js "Qmhello") Sample.alice w) in
   fst (@IpfsService.pin C (js "Qmhello") Sample.alice w) = Throws TypeError
   /\ ledger w1 = [pin_record (js "QmQmhello") Sample.alice w]
   /\ emitted w1 = []
   /\ @IpfsService.unpin C (js "Qmhello") Sample.alice w1
      = (Throws (Error "Content not pinned"), w1))
  /\ (let C := Sample.collaborators true in
      let w := Sample.empty_world true in
      let w1 := snd (@IpfsService.pin C (js "Qmhello") Sample.alice w) in
      fst (@IpfsService.pin C (js "Qmhello") Sample.alice w) = Returns (js "QmQmhello")
      /\ emitted w1 = [write_event (js "Qmhello") Sample.alice]
      /\ @IpfsService.unpin C (js "Qmhello") Sample.alice w1
         = (Throws (Error "Content not pinned"), w1)).
Proof.
  split.
  - intros C w w1.
    destruct (@facade_pin_takes_content C (js "Qmhello") Sample.alice w
                (js "QmQmhello") [(js "QmQmhello", js "Qmhello")]
                eq_refl eq_refl) as (Hl & Hu & Hf & _).
    + discriminate.
    + reflexivity.
    + destruct (Hf eq_refl) as [H1 H2].
      split; [exact H1|]. split; [exact Hl|]. split; [exact H2 | exact Hu].
  - intros C w w1.
    destruct (@facade_pin_takes_content C (js "Qmhello") Sample.alice w
                (js "QmQmhello") [(js "QmQmhello", js "Qmhello")]
                eq_refl eq_refl) as (_ & Hu & _ & Ht).
    + discriminate.
    + reflexivity.
    + destruct (Ht eq_refl) as [H1 H2].
      split; [exact H2|]. split; [exact H1 | exact Hu].
Defined.
